(** * Artificial Fish Swarm optimizer for traffic signal timings

    A shallow embedding of [backend/ml/optimization/afsa.py]:
    [ArtificialFishSwarmAlgorithm] (population initialisation, the prey,
    swarm and follow behaviours, the generational loop) and
    [TrafficSignalOptimizer] (the weighted fitness with its cycle-time
    rejection, and the result dictionary).

    Numbers.  The program computes on Python/NumPy floats.  The embedding is
    written once over an interface [Num] of the operations the source uses
    (+, -, *, /, sqrt, <, <=, literals, -inf) and is instantiated twice:
    [FloatNum], IEEE binary64 through Rocq's primitive floats, which is what
    the interpreter computes, and [QNum], exact rationals extended with -inf,
    an idealisation in which the comparison is a total order.  Theorems that
    need order reasoning assume [NumLaws]; binary64 violates them only at NaN.

    Randomness.  The program draws from the two ambient generators, Python's
    [random] module and NumPy's [np.random].  Their states are threaded
    explicitly ([world]); the generators themselves are an interface [Rand].

    Exceptions.  Indexing past the end of a list raises [IndexError],
    [np.argmax] of an empty array raises [ValueError], and the integer
    division [len(neighbors) / self.num_fish] raises [ZeroDivisionError] when
    [num_fish] is 0.  Fallible code returns [res].

    NumPy arrays are lists; [np.sum] and the dot product inside
    [np.linalg.norm] add in index order.  The progress [print] of [optimize]
    is not modelled. *)

From Stdlib Require Import List ZArith QArith Bool Lia Lqa Floats.
Import ListNotations.
Close Scope Q_scope.

Set Warnings "-inexact-float".

Set Implicit Arguments.

(** ** Numbers *)

Class Num : Type := {
  F : Type;
  fadd : F -> F -> F;
  fsub : F -> F -> F;
  fmul : F -> F -> F;
  fdiv : F -> F -> F;
  fsqrt : F -> F;
  fltb : F -> F -> bool;      (* a < b *)
  fleb : F -> F -> bool;      (* a <= b *)
  of_Z : Z -> F;              (* an int used where a float is expected *)
  flit : Q -> F;              (* a decimal literal such as 0.4 *)
  neg_inf : F                 (* float('-inf') *)
}.

(** The comparison is a total order: what real numbers give, and what
    binary64 gives away from NaN. *)
Class NumLaws (N : Num) : Prop := {
  fltb_irrefl : forall x : F, fltb x x = false;
  fltb_trans : forall x y z : F, fltb x y = true -> fltb y z = true -> fltb x z = true;
  fleb_fltb : forall x y : F, fleb x y = negb (fltb y x);
  fleb_trans : forall x y z : F, fleb x y = true -> fleb y z = true -> fleb x z = true
}.

(** ** Exceptions *)

Inductive exn : Type := IndexError | ValueError | ZeroDivisionError.

Inductive res (A : Type) : Type :=
| Ok (a : A)
| Raise (e : exn).
Arguments Raise {A} e.

Definition rbind {A B} (r : res A) (k : A -> res B) : res B :=
  match r with
  | Ok a => k a
  | Raise e => Raise e
  end.

Definition ok_or {A} (default : A) (r : res A) : A :=
  match r with
  | Ok a => a
  | Raise _ => default
  end.

(** [seq[i]] *)
Definition list_get {A} (l : list A) (i : nat) : res A :=
  match nth_error l i with
  | Some x => Ok x
  | None => Raise IndexError
  end.

(** [seq[i] = x] on an array; the index is in range wherever it is used. *)
Fixpoint list_set {A} (l : list A) (i : nat) (x : A) : list A :=
  match l, i with
  | [], _ => []
  | _ :: t, O => x :: t
  | h :: t, S i' => h :: list_set t i' x
  end.

(** ** The ambient random generators *)

Class Rand (N : Num) : Type := {
  PyRng : Type;
  NpRng : Type;
  (* random.uniform(a, b) *)
  py_uniform : PyRng -> F -> F -> F * PyRng;
  (* the index random.choice draws for a sequence of length n *)
  py_randbelow : PyRng -> nat -> nat * PyRng;
  (* one coordinate of np.random.uniform(low, high, size) *)
  np_uniform1 : NpRng -> F -> F -> F * NpRng
}.

(** The documented contracts: [uniform(a, b)] returns [N] with
    [a <= N <= b] when [a <= b]; [choice] indexes inside the sequence. *)
Class RandLaws (N : Num) (R : Rand N) : Prop := {
  py_uniform_range : forall g a b,
    fleb a b = true ->
    fleb a (fst (py_uniform g a b)) = true /\ fleb (fst (py_uniform g a b)) b = true;
  py_randbelow_lt : forall g n, (0 < n)%nat -> (fst (py_randbelow g n) < n)%nat
}.

Section Model.

Context {N : Num} {R : Rand N}.

Record world : Type := World { py_rng : PyRng; np_rng : NpRng }.

(** Computations that draw random numbers and may raise. *)
Definition M (A : Type) : Type := world -> res (A * world).

Definition ret {A} (a : A) : M A := fun w => Ok (a, w).

Definition bind {A B} (m : M A) (k : A -> M B) : M B :=
  fun w => match m w with
           | Ok (a, w') => k a w'
           | Raise e => Raise e
           end.

Definition lift {A} (r : res A) : M A :=
  fun w => match r with
           | Ok a => Ok (a, w)
           | Raise e => Raise e
           end.

Definition random_uniform (a b : F) : M F :=
  fun w => let (x, g) := py_uniform (py_rng w) a b in
           Ok (x, World g (np_rng w)).

(** [random.choice(seq)]: [seq[randbelow(len(seq))]], IndexError on []. *)
Definition random_choice {A} (l : list A) : M A :=
  fun w => match l with
           | [] => Raise IndexError
           | _ => let (i, g) := py_randbelow (py_rng w) (length l) in
                  match nth_error l i with
                  | Some x => Ok (x, World g (np_rng w))
                  | None => Raise IndexError
                  end
           end.

Definition np_random_uniform1 (a b : F) : M F :=
  fun w => let (x, g) := np_uniform1 (np_rng w) a b in
           Ok (x, World (py_rng w) g).

(** What the caller sees of a run: the returned value, or the exception. *)
Definition returned {A B} (f : A -> B) (r : res (A * world)) : res B :=
  match r with
  | Ok (a, _) => Ok (f a)
  | Raise e => Raise e
  end.

End Model.

Declare Scope afsa_scope.
Notation "x <- m ;; k" := (bind m (fun x => k))
  (at level 61, m at next level, right associativity) : afsa_scope.
Notation "' pat <- m ;; k" := (bind m (fun x => match x with pat => k end))
  (at level 61, pat pattern, m at next level, right associativity) : afsa_scope.
Open Scope afsa_scope.

Section Algorithm.

Context {N : Num} {R : Rand N}.

Definition vec : Type := list F.

(** [for i in range(n)] collecting one value per index. *)
Fixpoint mapM {A B} (f : A -> M B) (l : list A) : M (list B) :=
  match l with
  | [] => ret []
  | a :: t => b <- f a ;; bs <- mapM f t ;; ret (b :: bs)
  end.

Fixpoint rmapM {A B} (f : A -> res B) (l : list A) : res (list B) :=
  match l with
  | [] => Ok []
  | a :: t => rbind (f a) (fun b => rbind (rmapM f t) (fun bs => Ok (b :: bs)))
  end.

(** [np.random.uniform(low, high, size)] *)
Fixpoint np_random_uniform (a b : F) (size : nat) : M vec :=
  match size with
  | O => ret []
  | S n => x <- np_random_uniform1 a b ;; xs <- np_random_uniform a b n ;; ret (x :: xs)
  end.

(** *** Array arithmetic *)

Fixpoint map2 {A B C} (f : A -> B -> C) (l1 : list A) (l2 : list B) : list C :=
  match l1, l2 with
  | a :: t1, b :: t2 => f a b :: map2 f t1 t2
  | _, _ => []
  end.

Definition vadd (u v : vec) : vec := map2 fadd u v.
Definition vsub (u v : vec) : vec := map2 fsub u v.
Definition vscale (c : F) (v : vec) : vec := map (fmul c) v.
Definition vdiv (v : vec) (c : F) : vec := map (fun x => fdiv x c) v.

Definition np_sum (v : vec) : F := fold_left fadd v (of_Z 0).
Definition np_zeros (n : nat) : vec := repeat (of_Z 0) n.

(** [np.linalg.norm(v)]: the square root of [v . v]. *)
Definition norm (v : vec) : F := fsqrt (np_sum (map (fun x => fmul x x) v)).

(** Python's two-argument [min] and [max] keep the first argument unless the
    second is strictly smaller (resp. greater). *)
Definition py_min (a b : F) : F := if fltb b a then b else a.
Definition py_max (a b : F) : F := if fltb a b then b else a.

(** ** ArtificialFishSwarmAlgorithm *)

Record afsa : Type := Afsa {
  num_fish : nat;
  max_iterations : nat;
  visual_range : F;
  crowd_factor : F;
  step_size : F;
  try_number : nat;
  best_solution : option vec;
  best_fitness : F
}.

(** [__init__] with its default arguments. *)
Definition afsa_init (num_fish max_iterations : nat) (visual_range crowd_factor step_size : F)
    (try_number : nat) : afsa :=
  Afsa num_fish max_iterations visual_range crowd_factor step_size try_number None neg_inf.

Definition afsa_default : afsa :=
  afsa_init 50 100 (flit 5.0) (flit 0.618) (flit 0.5) 10.

Section Methods.

Variable self : afsa.
Variable fitness_function : vec -> res F.
Variables lower_bounds upper_bounds : list F.

(** [random.uniform(lower_bounds[j], upper_bounds[j])] *)
Definition draw_coordinate (j : nat) : M F :=
  lb <- lift (list_get lower_bounds j) ;;
  ub <- lift (list_get upper_bounds j) ;;
  random_uniform lb ub.

Definition initialize_population (dimensions : nat) : M (list vec) :=
  mapM (fun _ : nat => mapM draw_coordinate (seq 0 dimensions)) (seq 0 self.(num_fish)).

(** One pass of
    [new_position[j] = max(lower_bounds[j], min(upper_bounds[j], new_position[j]))]. *)
Definition clamp_at (new_position : vec) (j : nat) : res vec :=
  rbind (list_get lower_bounds j) (fun lb =>
  rbind (list_get upper_bounds j) (fun ub =>
  rbind (list_get new_position j) (fun x =>
  Ok (list_set new_position j (py_max lb (py_min ub x)))))).

Fixpoint clamp_loop (new_position : vec) (js : list nat) : res vec :=
  match js with
  | [] => Ok new_position
  | j :: js' => rbind (clamp_at new_position j) (fun p => clamp_loop p js')
  end.

Definition clamp (new_position : vec) (dimensions : nat) : res vec :=
  clamp_loop new_position (seq 0 dimensions).

(** One try of the prey loop: the clamped position one visual range away in
    a random direction. *)
Definition prey_sample (current_fish : vec) : M vec :=
  let dimensions := length current_fish in
  random_direction <- np_random_uniform (of_Z (-1)) (of_Z 1) dimensions ;;
  let random_direction := vdiv random_direction (norm random_direction) in
  let new_position := vadd current_fish (vscale self.(visual_range) random_direction) in
  lift (clamp new_position dimensions).

Fixpoint prey_loop (current_fish : vec) (current_fitness : F) (tries : nat) : M vec :=
  match tries with
  | O => ret current_fish
  | S n =>
      new_position <- prey_sample current_fish ;;
      new_fitness <- lift (fitness_function new_position) ;;
      if fltb current_fitness new_fitness then ret new_position
      else prey_loop current_fish current_fitness n
  end.

Definition prey_behavior (current_fish : vec) (population : list vec) : M vec :=
  current_fitness <- lift (fitness_function current_fish) ;;
  prey_loop current_fish current_fitness self.(try_number).

(** [0 < distance < self.visual_range] *)
Definition in_visual_range (current_fish fish : vec) : bool :=
  let distance := norm (vsub fish current_fish) in
  fltb (of_Z 0) distance && fltb distance self.(visual_range).

Definition find_neighbors (current_fish : vec) (population : list vec) : list vec :=
  filter (in_visual_range current_fish) population.

(** [center = np.zeros(dimensions)], [center += neighbor] for each
    neighbour, [center /= len(neighbors)]. *)
Definition centroid (dimensions : nat) (neighbors : list vec) : vec :=
  vdiv (fold_left vadd neighbors (np_zeros dimensions)) (of_Z (Z.of_nat (length neighbors))).

(** [a / b] on two ints. *)
Definition int_div (a b : nat) : res F :=
  match b with
  | O => Raise ZeroDivisionError
  | _ => Ok (fdiv (of_Z (Z.of_nat a)) (of_Z (Z.of_nat b)))
  end.

(** [direction / norm(direction)] when the norm is positive. *)
Definition unit_direction (direction : vec) : vec :=
  if fltb (of_Z 0) (norm direction) then vdiv direction (norm direction) else direction.

(** The step shared by swarm and follow: from the current position towards
    a target by [step_size], then clamped. *)
Definition move_towards (current_fish target : vec) : res vec :=
  let direction := unit_direction (vsub target current_fish) in
  let new_position := vadd current_fish (vscale self.(step_size) direction) in
  clamp new_position (length current_fish).

Definition swarm_behavior (current_fish : vec) (population : list vec) : M vec :=
  let dimensions := length current_fish in
  current_fitness <- lift (fitness_function current_fish) ;;
  let neighbors := find_neighbors current_fish population in
  match neighbors with
  | [] => ret current_fish
  | _ =>
      let center := centroid dimensions neighbors in
      ratio <- lift (int_div (length neighbors) self.(num_fish)) ;;
      if fltb self.(crowd_factor) ratio then prey_behavior current_fish population
      else
        center_fitness <- lift (fitness_function center) ;;
        if fltb current_fitness center_fitness
        then lift (move_towards current_fish center)
        else prey_behavior current_fish population
  end.

(** The scan for the best neighbour: [(best_neighbor, best_neighbor_fitness)]. *)
Fixpoint best_neighbor_scan (current_fish : vec) (population : list vec)
    (best : option vec * F) : res (option vec * F) :=
  match population with
  | [] => Ok best
  | fish :: rest =>
      if in_visual_range current_fish fish
      then rbind (fitness_function fish) (fun fish_fitness =>
             if fltb (snd best) fish_fitness
             then best_neighbor_scan current_fish rest (Some fish, fish_fitness)
             else best_neighbor_scan current_fish rest best)
      else best_neighbor_scan current_fish rest best
  end.

(** The count of fish with [distance < self.visual_range] of the best
    neighbour (the neighbour itself included). *)
Definition count_near (best_neighbor : vec) (population : list vec) : nat :=
  length (filter (fun fish => fltb (norm (vsub fish best_neighbor)) self.(visual_range)) population).

Definition follow_behavior (current_fish : vec) (population : list vec) : M vec :=
  current_fitness <- lift (fitness_function current_fish) ;;
  '(best_neighbor, best_neighbor_fitness) <-
     lift (best_neighbor_scan current_fish population (None, neg_inf)) ;;
  match best_neighbor with
  | None => prey_behavior current_fish population
  | Some best_neighbor =>
      if fleb best_neighbor_fitness current_fitness
      then prey_behavior current_fish population
      else
        ratio <- lift (int_div (count_near best_neighbor population) self.(num_fish)) ;;
        if fltb self.(crowd_factor) ratio then prey_behavior current_fish population
        else lift (move_towards current_fish best_neighbor)
  end.

(** [np.argmax]: the first index holding the largest value; ValueError on
    an empty array. *)
Fixpoint argmax_from (l : list F) (i best_index : nat) (best : F) : nat :=
  match l with
  | [] => best_index
  | x :: t => if fltb best x then argmax_from t (S i) i x
              else argmax_from t (S i) best_index best
  end.

Definition np_argmax (l : list F) : res nat :=
  match l with
  | [] => Raise ValueError
  | x :: t => Ok (argmax_from t 1 0 x)
  end.

Inductive behavior : Type := prey | swarm | follow.

(** The incumbent: [(self.best_solution, self.best_fitness)]. *)
Definition incumbent : Type := (vec * F)%type.

Definition apply_behavior (b : behavior) (current_fish : vec) (population : list vec) : M vec :=
  match b with
  | prey => prey_behavior current_fish population
  | swarm => swarm_behavior current_fish population
  | follow => follow_behavior current_fish population
  end.

(** The body of [for i in range(self.num_fish)]: the new position of fish i
    and the incumbent after the comparison with its fitness. *)
Definition fish_step (population : list vec) (best : incumbent) (i : nat)
    : M (vec * incumbent) :=
  current_fish <- lift (list_get population i) ;;
  b <- random_choice [prey; swarm; follow] ;;
  new_position <- apply_behavior b current_fish population ;;
  new_fitness <- lift (fitness_function new_position) ;;
  if fltb (snd best) new_fitness
  then ret (new_position, (new_position, new_fitness))
  else ret (new_position, best).

Fixpoint fish_loop (population : list vec) (best : incumbent) (idx : list nat)
    : M (list vec * incumbent) :=
  match idx with
  | [] => ret ([], best)
  | i :: idx' =>
      '(new_position, best1) <- fish_step population best i ;;
      '(rest, best2) <- fish_loop population best1 idx' ;;
      ret (new_position :: rest, best2)
  end.

(** One iteration of the main loop. *)
Definition generation (population : list vec) (best : incumbent)
    : M (list vec * incumbent) :=
  fish_loop population best (seq 0 self.(num_fish)).

Fixpoint generations (n : nat) (population : list vec) (best : incumbent)
    : M (list vec * incumbent) :=
  match n with
  | O => ret (population, best)
  | S n' =>
      '(new_population, best1) <- generation population best ;;
      generations n' new_population best1
  end.

(** The first lines of [optimize]: the population and its best member. *)
Definition optimize_init (dimensions : nat) : M (list vec * incumbent) :=
  population <- initialize_population dimensions ;;
  fitness_values <- lift (rmapM fitness_function population) ;;
  best_index <- lift (np_argmax fitness_values) ;;
  solution <- lift (list_get population best_index) ;;
  value <- lift (list_get fitness_values best_index) ;;
  ret (population, (solution, value)).

(** [optimize]: the returned pair and the object with its two fields
    reassigned. *)
Definition optimize (dimensions : nat) : M ((vec * F) * afsa) :=
  '(population, best) <- optimize_init dimensions ;;
  '(_, best') <- generations self.(max_iterations) population best ;;
  ret (best',
       Afsa self.(num_fish) self.(max_iterations) self.(visual_range) self.(crowd_factor)
            self.(step_size) self.(try_number) (Some (fst best')) (snd best')).

End Methods.

(** ** TrafficSignalOptimizer *)

Record traffic_signal_optimizer : Type := TrafficSignalOptimizer {
  num_phases : nat;
  min_green_time : F;
  max_green_time : F;
  cycle_time_constraint : F;
  afsa_obj : afsa
}.

Definition traffic_signal_optimizer_init (num_phases : nat)
    (min_green_time max_green_time cycle_time_constraint : F) : traffic_signal_optimizer :=
  TrafficSignalOptimizer num_phases min_green_time max_green_time cycle_time_constraint
    afsa_default.

(** [np.sum([f(solution[i], xs[i]) for i in range(n)])] *)
Definition sum_over (n : nat) (f : F -> F -> F) (solution xs : list F) : res F :=
  rbind (rmapM (fun i => rbind (list_get solution i) (fun s =>
                         rbind (list_get xs i) (fun x => Ok (f s x))))
               (seq 0 n))
        (fun terms => Ok (np_sum terms)).

Definition fitness_function (self : traffic_signal_optimizer) (solution : vec)
    (traffic_volumes queue_lengths waiting_times : list F)
    (emergency_priority : option (list F)) : res F :=
  let total_cycle_time := np_sum solution in
  if fltb self.(cycle_time_constraint) total_cycle_time then Ok neg_inf
  else
    rbind (sum_over self.(num_phases) fmul solution traffic_volumes) (fun throughput =>
    rbind (sum_over self.(num_phases) fmul solution queue_lengths) (fun queue_reduction =>
    rbind (sum_over self.(num_phases) fdiv solution waiting_times) (fun waiting_time_reduction =>
    rbind (match emergency_priority with
           | None => Ok (of_Z 0)
           | Some ep => sum_over self.(num_phases) fmul solution ep
           end) (fun emergency_score =>
    Ok (fadd (fadd (fadd (fmul (flit 0.4) throughput)
                         (fmul (flit 0.3) queue_reduction))
                   (fmul (flit 0.2) waiting_time_reduction))
             (fmul (flit 0.1) emergency_score)))))).

Record optimization_result : Type := OptimizationResult {
  green_times : vec;
  cycle_time : F;
  phase_proportions : vec;
  fitness : F
}.

Definition optimize_signal_timings (self : traffic_signal_optimizer)
    (traffic_volumes queue_lengths waiting_times : list F)
    (emergency_priority : option (list F)) : M (optimization_result * afsa) :=
  let lower_bounds := repeat self.(min_green_time) self.(num_phases) in
  let upper_bounds := repeat self.(max_green_time) self.(num_phases) in
  let fitness := fun solution =>
    fitness_function self solution traffic_volumes queue_lengths waiting_times
      emergency_priority in
  '((best_solution, best_fitness), afsa') <-
    optimize self.(afsa_obj) fitness lower_bounds upper_bounds self.(num_phases) ;;
  let total_cycle_time := np_sum best_solution in
  let phase_proportions := vdiv best_solution total_cycle_time in
  ret (OptimizationResult best_solution total_cycle_time phase_proportions best_fitness,
       afsa').

End Algorithm.

(** ** Two number systems *)

(** *** Binary64, as the interpreter computes *)

Definition float_of_Z (z : Z) : float :=
  match z with
  | Z0 => PrimFloat.zero
  | Zpos _ => PrimFloat.of_uint63 (Uint63.of_Z z)
  | Zneg _ => PrimFloat.opp (PrimFloat.of_uint63 (Uint63.of_Z (Z.opp z)))
  end.

Definition float_of_Q (q : Q) : float :=
  PrimFloat.div (float_of_Z (Qnum q)) (float_of_Z (Zpos (Qden q))).

Definition FloatNum : Num := {|
  F := float;
  fadd := PrimFloat.add;
  fsub := PrimFloat.sub;
  fmul := PrimFloat.mul;
  fdiv := PrimFloat.div;
  fsqrt := PrimFloat.sqrt;
  fltb := PrimFloat.ltb;
  fleb := PrimFloat.leb;
  of_Z := float_of_Z;
  flit := float_of_Q;
  neg_inf := PrimFloat.neg_infinity
|}.

(** *** Exact rationals with -inf *)

Inductive xq : Type := NInf | Fin (q : Q).

(** Results are kept in lowest terms. *)
Definition xq_lift2 (f : Q -> Q -> Q) (a b : xq) : xq :=
  match a, b with
  | Fin x, Fin y => Fin (Qred (f x y))
  | _, _ => NInf
  end.

(** The largest rational with the denominator of [q] whose square is at
    most [q]: exact on squares of such rationals. *)
Definition Qsqrt_floor (q : Q) : Q :=
  Qred (Z.sqrt (Qnum q * Zpos (Qden q)) # Qden q).

Definition xq_sqrt (a : xq) : xq :=
  match a with
  | Fin x => Fin (Qsqrt_floor x)
  | NInf => NInf
  end.

Definition xq_ltb (a b : xq) : bool :=
  match a, b with
  | NInf, NInf => false
  | NInf, Fin _ => true
  | Fin _, NInf => false
  | Fin x, Fin y => negb (Qle_bool y x)
  end.

Definition xq_leb (a b : xq) : bool := negb (xq_ltb b a).

Definition QNum : Num := {|
  F := xq;
  fadd := xq_lift2 Qplus;
  fsub := xq_lift2 Qminus;
  fmul := xq_lift2 Qmult;
  fdiv := xq_lift2 Qdiv;
  fsqrt := xq_sqrt;
  fltb := xq_ltb;
  fleb := xq_leb;
  of_Z := fun z => Fin (inject_Z z);
  flit := Fin;
  neg_inf := NInf
|}.

(** ** A scripted generator

    The generators replay recorded draws.  [random.uniform(a, b)] is
    [a + (b - a) * random()] and NumPy's uniform is
    [low + (high - low) * random_sample()], where the unit draw is a 53-bit
    integer over 2^53; [random.choice] indexes with a draw below the
    length.  An exhausted tape keeps answering with draw 0. *)

Record tape : Type := Tape { unit_draws : list Z; index_draws : list nat }.

Section Scripted.

Context {N : Num}.

Definition unit_float (k : Z) : F :=
  fdiv (of_Z (k mod 2 ^ 53)) (of_Z (2 ^ 53)).

Definition scaled (a b : F) (k : Z) : F :=
  fadd a (fmul (fsub b a) (unit_float k)).

Definition tape_uniform (g : tape) (a b : F) : F * tape :=
  match unit_draws g with
  | [] => (scaled a b 0, g)
  | k :: t => (scaled a b k, Tape t (index_draws g))
  end.

Definition tape_randbelow (g : tape) (n : nat) : nat * tape :=
  match index_draws g with
  | [] => (0%nat, g)
  | i :: t => (Nat.modulo i n, Tape (unit_draws g) t)
  end.

Definition np_tape_uniform1 (g : list Z) (a b : F) : F * list Z :=
  match g with
  | [] => (scaled a b 0, [])
  | k :: t => (scaled a b k, t)
  end.

Definition ScriptedRand : Rand N := {|
  PyRng := tape;
  NpRng := list Z;
  py_uniform := tape_uniform;
  py_randbelow := tape_randbelow;
  np_uniform1 := np_tape_uniform1
|}.

End Scripted.

(** ** The specification's formulas, for comparison with the code *)

Section Specification.

Context {N : Num}.

(** [Σ candidate[i] (op) xs[i]], paired positionally. *)
Definition sigma (op : F -> F -> F) (candidate xs : list F) : F :=
  np_sum (map2 op candidate xs).

(** Section 4.3 of the specification, steps 2 to 6: the weighted score of a
    feasible candidate. *)
Definition weighted_score (candidate volumes queue_lengths waiting_times : list F)
    (emergency_priority : option (list F)) : F :=
  let throughput := sigma fmul candidate volumes in
  let queue_reduction := sigma fmul candidate queue_lengths in
  let wait_reduction := sigma fdiv candidate waiting_times in
  let emergency_score :=
    match emergency_priority with
    | Some ep => sigma fmul candidate ep
    | None => of_Z 0
    end in
  fadd (fadd (fadd (fmul (flit 0.4) throughput) (fmul (flit 0.3) queue_reduction))
             (fmul (flit 0.2) wait_reduction))
       (fmul (flit 0.1) emergency_score).

(** Step 1 before them: the rejection of an infeasible candidate. *)
Definition fitness_spec (cycle_time_constraint : F) (candidate volumes queue_lengths
    waiting_times : list F) (emergency_priority : option (list F)) : F :=
  if fltb cycle_time_constraint (np_sum candidate) then neg_inf
  else weighted_score candidate volumes queue_lengths waiting_times emergency_priority.

(** The clamp of a whole position, coordinate by coordinate. *)
Fixpoint clamp_zip (lower_bounds upper_bounds : list F) (v : list F) {struct v}
    : res (list F) :=
  match v with
  | [] => Ok []
  | x :: v' =>
      match lower_bounds, upper_bounds with
      | l :: lb', u :: ub' =>
          rbind (clamp_zip lb' ub' v') (fun r => Ok (py_max l (py_min u x) :: r))
      | _, _ => Raise IndexError
      end
  end.

(** Every coordinate [j] of [v] lies in [lower_bounds[j], upper_bounds[j]]. *)
Definition in_bounds (lower_bounds upper_bounds : list F) (v : list F) : Prop :=
  forall j x, nth_error v j = Some x ->
    exists l u, nth_error lower_bounds j = Some l /\ nth_error upper_bounds j = Some u /\
                fleb l x = true /\ fleb x u = true.

(** [lower[j] <= upper[j]] for all j. *)
Definition bounds_ordered (lower_bounds upper_bounds : list F) : Prop :=
  forall j l u, nth_error lower_bounds j = Some l -> nth_error upper_bounds j = Some u ->
    fleb l u = true.

(** The comparison-and-replace of the main loop: the incumbent after one
    more evaluated candidate. *)
Definition update_best (best : list F * F) (candidate : list F * F) : list F * F :=
  if fltb (snd best) (snd candidate) then candidate else best.

(** The recorded best fitness is the fitness of the recorded best solution. *)
Definition consistent (fitness_function : list F -> res F) (best : list F * F) : Prop :=
  fitness_function (fst best) = Ok (snd best).

End Specification.

(** *** The prey behaviour in the specification's words *)

Section PreySpecification.

Context {N : Num} {R : Rand N}.

Variable self : afsa.
Variable fitness_function : list F -> res F.
Variables lower_bounds upper_bounds : list F.

(** The positions sampled by [k] successive tries from one position. *)
Fixpoint draw_samples (k : nat) (current_fish : list F) : M (list (list F)) :=
  match k with
  | O => ret []
  | S k' =>
      s <- prey_sample self lower_bounds upper_bounds current_fish ;;
      rest <- draw_samples k' current_fish ;;
      ret (s :: rest)
  end.

(** Up to [try_number] positions are sampled in turn.  Either one of them is
    strictly fitter than the current position, no earlier one is, and it is
    the result; or all [try_number] were sampled, none is strictly fitter, and
    the result is the current position. *)
Definition prey_spec (current_fish : list F) (w : world) (p : list F) (w' : world) : Prop :=
  exists current_fitness k samples fs,
    fitness_function current_fish = Ok current_fitness /\
    (k <= try_number self)%nat /\
    draw_samples k current_fish w = Ok (samples, w') /\
    rmapM fitness_function samples = Ok fs /\
    ((exists earlier fs_earlier f,
         samples = earlier ++ [p] /\ fs = fs_earlier ++ [f] /\
         length earlier = length fs_earlier /\
         Forall (fun f' => fltb current_fitness f' = false) fs_earlier /\
         fltb current_fitness f = true)
     \/
     (k = try_number self /\
      Forall (fun f' => fltb current_fitness f' = false) fs /\
      p = current_fish)).

End PreySpecification.

(** ** A worked scenario in exact arithmetic

    Two phases with green times in [10, 120], a cycle of at most 130 s, no
    volumes or queues, waiting times 5 s and 50 s; a swarm of two fish run
    for two iterations with two prey tries. *)

Module Scenario.

Definition q (z : Z) : xq := Fin (inject_Z z).

Definition swarm2 : afsa (N:=QNum) :=
  afsa_init (N:=QNum) 2 2 (flit 5) (flit 0.618) (flit 0.5) 2.

Definition optimizer : traffic_signal_optimizer (N:=QNum) :=
  TrafficSignalOptimizer (N:=QNum) 2 (q 10) (q 120) (q 130) swarm2.

Definition volumes : list xq := [q 0; q 0].
Definition queues : list xq := [q 0; q 0].
Definition waits : list xq := [q 5; q 50].

Definition lower : list xq := [q 10; q 10].
Definition upper : list xq := [q 120; q 120].

Definition objective (solution : list xq) : res xq :=
  fitness_function optimizer solution volumes queues waits None.

(** Unit draws 1/2, 0, 1/4, 1/8 for the initial population; behaviour
    indices 0 (prey), 1 (swarm), 2 (follow), 0 (prey); direction draws for
    the prey tries. *)
Definition w0 : world (R:=ScriptedRand (N:=QNum)) :=
  World (R:=ScriptedRand (N:=QNum))
    (Tape [2 ^ 52; 0; 2 ^ 51; 2 ^ 50]%Z [0; 1; 2; 0]%nat)
    [2 ^ 53 - 1; 2 ^ 52; 0; 2 ^ 52; 2 ^ 52; 2 ^ 53 - 1; 2 ^ 51; 2 ^ 52]%Z.

(** The run of the scenario, evaluated. *)
Definition start : list (list xq) * (list xq * xq) * world (R:=ScriptedRand (N:=QNum)) :=
  Eval vm_compute in
    ok_or ([], ([], NInf), w0) (optimize_init swarm2 objective lower upper 2 w0).

Definition finish : list (list xq) * (list xq * xq) * world (R:=ScriptedRand (N:=QNum)) :=
  Eval vm_compute in
    ok_or ([], ([], NInf), w0)
      (generations swarm2 objective lower upper 2 (fst (fst start)) (snd (fst start))
         (snd start)).

Definition outcome
    : optimization_result (N:=QNum) * afsa (N:=QNum) * world (R:=ScriptedRand (N:=QNum)) :=
  Eval vm_compute in
    ok_or (OptimizationResult (N:=QNum) [] NInf [] NInf, swarm2, w0)
      (optimize_signal_timings optimizer volumes queues waits None w0).

(** The same draws, recorded with one more turn of 2^53. *)
Definition w0_shifted : world (R:=ScriptedRand (N:=QNum)) :=
  World (R:=ScriptedRand (N:=QNum))
    (Tape (map (Z.add (2 ^ 53)) [2 ^ 52; 0; 2 ^ 51; 2 ^ 50]%Z) [0; 1; 2; 0]%nat)
    (map (Z.add (2 ^ 53))
       [2 ^ 53 - 1; 2 ^ 52; 0; 2 ^ 52; 2 ^ 52; 2 ^ 53 - 1; 2 ^ 51; 2 ^ 52]%Z).

End Scenario.

(** ** Scenarios in binary64

    The optimizer as its constructor builds it (50 fish, 100 iterations) for
    two phases with green times in [10, 120] and a cycle of at most 130 s.
    With the generator [quiet] every unit draw is 0 and every behaviour draw
    is index 0 (prey); [half_first] differs in its first unit draw, 1/2. *)

Module Binary64.

Definition optimizer : traffic_signal_optimizer (N:=FloatNum) :=
  traffic_signal_optimizer_init (N:=FloatNum) 2 10%float 120%float 130%float.

Definition volumes : list float := [0; 0]%float.
Definition queues : list float := [0; 0]%float.
Definition waits : list float := [5; 50]%float.
Definition negative_waits : list float := [-5; 50]%float.

Definition objective (solution : list float) : res float :=
  fitness_function optimizer solution volumes queues waits None.

Definition quiet : world (R:=ScriptedRand (N:=FloatNum)) :=
  World (R:=ScriptedRand (N:=FloatNum)) (Tape [] []) [].

Definition half_first : world (R:=ScriptedRand (N:=FloatNum)) :=
  World (R:=ScriptedRand (N:=FloatNum)) (Tape [2 ^ 52]%Z []) [].

End Binary64.

(** *** Runs that see the same draws *)

Section SameDraws.

Context {N : Num}.

Variables R1 R2 : Rand N.

(** How the states of two generators correspond. *)
Variable py_related : @PyRng N R1 -> @PyRng N R2 -> Prop.
Variable np_related : @NpRng N R1 -> @NpRng N R2 -> Prop.

(** Corresponding states answer every request with the same draw and move to
    corresponding states. *)
Definition same_draws : Prop :=
  (forall g g' a b, py_related g g' ->
     fst (py_uniform g a b) = fst (py_uniform g' a b) /\
     py_related (snd (py_uniform g a b)) (snd (py_uniform g' a b))) /\
  (forall g g' n, py_related g g' ->
     fst (py_randbelow g n) = fst (py_randbelow g' n) /\
     py_related (snd (py_randbelow g n)) (snd (py_randbelow g' n))) /\
  (forall g g' a b, np_related g g' ->
     fst (np_uniform1 g a b) = fst (np_uniform1 g' a b) /\
     np_related (snd (np_uniform1 g a b)) (snd (np_uniform1 g' a b))).

Definition related (w1 : world (R:=R1)) (w2 : world (R:=R2)) : Prop :=
  py_related (py_rng w1) (py_rng w2) /\ np_related (np_rng w1) (np_rng w2).

(** Two runs end alike: the same value and corresponding generator states, or
    the same exception. *)
Definition same_outcome {A} (r1 : res (A * world (R:=R1))) (r2 : res (A * world (R:=R2)))
    : Prop :=
  match r1, r2 with
  | Ok (a1, w1), Ok (a2, w2) => a1 = a2 /\ related w1 w2
  | Raise e1, Raise e2 => e1 = e2
  | _, _ => False
  end.

Definition alike {A} (m1 : M (R:=R1) A) (m2 : M (R:=R2) A) : Prop :=
  forall w1 w2, related w1 w2 -> same_outcome (m1 w1) (m2 w2).

End SameDraws.

(** Two tapes that replay the same draws: equal behaviour indices, unit
    draws equal modulo 2^53. *)
Definition congruent_draws (u u' : list Z) : Prop :=
  Forall2 (fun k k' => (k mod 2 ^ 53 = k' mod 2 ^ 53)%Z) u u'.

Definition congruent_tapes (g g' : tape) : Prop :=
  index_draws g = index_draws g' /\ congruent_draws (unit_draws g) (unit_draws g').

(** *** Observing a run *)

Section Observations.

Context {N : Num} {R : Rand N}.

(** The population and generator state a run of the loop ends with, the
    incumbent left aside. *)
Definition population_of (r : res ((list (list F) * (list F * F)) * world))
    : res (list (list F) * world) :=
  match r with
  | Ok ((population, _), w) => Ok (population, w)
  | Raise e => Raise e
  end.

(** Two runs that end with the same positions and generator state, or with
    the same exception. *)
Definition same_positions {A} (r1 r2 : res ((A * (list F * F)) * world)) : Prop :=
  match r1, r2 with
  | Ok ((a1, _), w1), Ok ((a2, _), w2) => a1 = a2 /\ w1 = w2
  | Raise e1, Raise e2 => e1 = e2
  | _, _ => False
  end.

End Observations.

(** ** A scenario without feasible timing

    Three phases of at least 50 s each in a cycle of at most 100 s. *)

Module Infeasible.

Definition optimizer : traffic_signal_optimizer (N:=QNum) :=
  TrafficSignalOptimizer (N:=QNum) 3 (Scenario.q 50) (Scenario.q 120) (Scenario.q 100)
    Scenario.swarm2.

Definition lower : list xq := [Scenario.q 50; Scenario.q 50; Scenario.q 50].
Definition upper : list xq := [Scenario.q 120; Scenario.q 120; Scenario.q 120].

Definition context : list xq := [Scenario.q 1; Scenario.q 1; Scenario.q 1].

Definition objective (solution : list xq) : res xq :=
  fitness_function optimizer solution context context context None.

Definition w0 : world (R:=ScriptedRand (N:=QNum)) :=
  World (R:=ScriptedRand (N:=QNum))
    (Tape [2 ^ 52; 0; 2 ^ 51; 2 ^ 50; 2 ^ 52; 1]%Z [0; 1; 2; 0]%nat)
    [2 ^ 53 - 1; 2 ^ 52; 0; 2 ^ 52; 2 ^ 52; 2 ^ 53 - 1; 2 ^ 51; 2 ^ 52; 7]%Z.

End Infeasible.

(** ** Further runs of the worked scenario *)

Module Walkthrough.

(** The first generation after the initial population. *)
Definition first_generation
    : list (list xq) * (list xq * xq) * world (R:=ScriptedRand (N:=QNum)) :=
  Eval vm_compute in
    ok_or ([], ([], NInf), Scenario.w0)
      (generation Scenario.swarm2 Scenario.objective Scenario.lower Scenario.upper
         (fst (fst Scenario.start)) (snd (fst Scenario.start)) (snd Scenario.start)).

(** A prey move from (65, 10). *)
Definition prey_run : list xq * world (R:=ScriptedRand (N:=QNum)) :=
  Eval vm_compute in
    ok_or ([], Scenario.w0)
      (prey_behavior Scenario.swarm2 Scenario.objective Scenario.lower Scenario.upper
         [Scenario.q 65; Scenario.q 10] [] Scenario.w0).

(** Two fish within sight of each other. *)
Definition pair : list (list xq) :=
  [[Scenario.q 65; Scenario.q 10]; [Scenario.q 66; Scenario.q 11]].

Definition scan : option (list xq) * xq :=
  Eval vm_compute in
    ok_or (None, NInf)
      (best_neighbor_scan Scenario.swarm2 Scenario.objective
         [Scenario.q 65; Scenario.q 10] pair (None, NInf)).

(** The search of the scenario without feasible timing. *)
Definition infeasible_outcome
    : list xq * xq * afsa (N:=QNum) * world (R:=ScriptedRand (N:=QNum)) :=
  Eval vm_compute in
    ok_or ([], NInf, Scenario.swarm2, Infeasible.w0)
      (optimize Scenario.swarm2 Infeasible.objective Infeasible.lower Infeasible.upper 3
         Infeasible.w0).

End Walkthrough.

(** * Properties *)

(** ** Lists and the two monads *)

Section Basics.

Context {N : Num} {R : Rand N}.

Lemma rbind_ok {A B} (r : res A) (k : A -> res B) (b : B) :
  rbind r k = Ok b -> exists a, r = Ok a /\ k a = Ok b.
Proof. destruct r as [a|e]; simpl; intros E; [eauto | discriminate]. Qed.

Lemma bind_ok {A B} (m : M A) (k : A -> M B) w b w' :
  bind m k w = Ok (b, w') -> exists a w1, m w = Ok (a, w1) /\ k a w1 = Ok (b, w').
Proof.
  unfold bind. destruct (m w) as [[a w1]|e]; intros E; [eauto | discriminate].
Qed.

Lemma lift_ok {A} (r : res A) w a w' :
  lift r w = Ok (a, w') -> r = Ok a /\ w' = w.
Proof. unfold lift. destruct r; intros E; inversion E; auto. Qed.

Lemma ret_ok {A} (a b : A) w w' : ret a w = Ok (b, w') -> b = a /\ w' = w.
Proof. unfold ret. intros E; inversion E; auto. Qed.

Lemma rmapM_seq_shift {B} (f : nat -> res B) a n :
  rmapM f (seq (S a) n) = rmapM (fun i => f (S i)) (seq a n).
Proof.
  revert a. induction n as [|n IH]; intros a; simpl; [reflexivity|].
  now rewrite IH.
Qed.

Lemma rmapM_ext {A B} (f g : A -> res B) l :
  (forall a, f a = g a) -> rmapM f l = rmapM g l.
Proof. intros E. induction l as [|a l IH]; simpl; [reflexivity|]. now rewrite E, IH. Qed.

Lemma map2_length {A B C} (f : A -> B -> C) l1 l2 :
  length (map2 f l1 l2) = Nat.min (length l1) (length l2).
Proof.
  revert l2. induction l1 as [|a l1 IH]; intros [|b l2]; simpl; auto.
Qed.

End Basics.

(** Inverts a successful run of a monadic computation step by step. *)
Ltac inv_ok H :=
  repeat match type of H with
  | bind _ _ _ = Ok (_, _) =>
      let a := fresh "a" in let w := fresh "w" in
      let H1 := fresh "Hrun" in
      apply bind_ok in H; destruct H as (a & w & H1 & H)
  end.

Ltac inv_run :=
  repeat match goal with
  | H : bind _ _ _ = Ok (_, _) |- _ =>
      apply bind_ok in H; destruct H as (? & ? & ? & H)
  | H : lift _ _ = Ok (_, _) |- _ =>
      apply lift_ok in H; destruct H as [H ?]; subst
  | H : ret _ _ = Ok (_, _) |- _ =>
      apply ret_ok in H; destruct H as [? ?]; subst
  | H : rbind _ _ = Ok _ |- _ =>
      apply rbind_ok in H; destruct H as (? & ? & H)
  | H : Ok _ = Ok _ |- _ => inversion H; subst; clear H
  | H : (_, _) = (_, _) |- _ => inversion H; subst; clear H
  end.

(** Discharges the premise of [H] by evaluation. *)
Ltac evaluated H :=
  match type of H with
  | ?A -> _ =>
      let E := fresh "E" in
      assert (E : A) by (vm_compute; reflexivity);
      specialize (H E); clear E
  end.

(** ** The fitness function *)

Section Fitness.

Context {N : Num}.

Lemma sum_over_sigma (op : F -> F -> F) (solution xs : list F) n :
  length solution = n -> length xs = n ->
  sum_over n op solution xs = Ok (sigma op solution xs).
Proof.
  intros Hs Hx. unfold sum_over, sigma.
  assert (E : rmapM (fun i => rbind (list_get solution i) (fun s =>
                     rbind (list_get xs i) (fun x => Ok (op s x)))) (seq 0 n)
              = Ok (map2 op solution xs)).
  { clear -Hs Hx. revert xs n Hs Hx.
    induction solution as [|s sol IH]; intros [|x xs] n Hs Hx; simpl in *; subst n;
      try discriminate; [reflexivity|].
    simpl. rewrite rmapM_seq_shift.
    rewrite (rmapM_ext _ (fun i => rbind (list_get sol i) (fun s0 =>
                                   rbind (list_get xs i) (fun x0 => Ok (op s0 x0))))) by reflexivity.
    rewrite (IH xs (length sol)); [reflexivity | reflexivity | congruence]. }
  rewrite E. reflexivity.
Qed.


End Fitness.

(** ** Clamping *)

Section Clamp.

Context {N : Num}.

Variables lower_bounds upper_bounds : list F.

Lemma nth_error_skipn_hd {A} (l : list A) k :
  nth_error l k = hd_error (skipn k l).
Proof.
  revert l. induction k as [|k IH]; intros [|a l]; simpl; auto.
Qed.

Lemma skipn_S_tl {A} (l : list A) k : skipn (S k) l = tl (skipn k l).
Proof.
  revert l. induction k as [|k IH]; intros [|a l]; try reflexivity.
  apply (IH l).
Qed.

Lemma list_set_app {A} (pre post : list A) x y :
  list_set (pre ++ x :: post) (length pre) y = pre ++ y :: post.
Proof. induction pre as [|a pre IH]; simpl; [reflexivity|]. now rewrite IH. Qed.

Lemma clamp_loop_zip (post pre : list F) :
  clamp_loop lower_bounds upper_bounds (pre ++ post) (seq (length pre) (length post))
  = rbind (clamp_zip (skipn (length pre) lower_bounds) (skipn (length pre) upper_bounds) post)
          (fun r => Ok (pre ++ r)).
Proof.
  revert pre. induction post as [|x post IH]; intros pre; simpl.
  - reflexivity.
  - unfold clamp_at, list_get. rewrite !nth_error_skipn_hd.
    destruct (skipn (length pre) lower_bounds) as [|l lb'] eqn:El; simpl; [reflexivity|].
    destruct (skipn (length pre) upper_bounds) as [|u ub'] eqn:Eu; simpl; [reflexivity|].
    rewrite <- nth_error_skipn_hd.
    rewrite nth_error_app2 by lia. rewrite Nat.sub_diag. simpl.
    rewrite list_set_app.
    replace (pre ++ py_max l (py_min u x) :: post)
      with ((pre ++ [py_max l (py_min u x)]) ++ post) by (now rewrite <- app_assoc).
    replace (S (length pre)) with (length (pre ++ [py_max l (py_min u x)]))
      by (rewrite length_app; simpl; lia).
    rewrite IH. rewrite length_app. simpl. rewrite Nat.add_1_r.
    rewrite !skipn_S_tl, El, Eu. simpl.
    destruct (clamp_zip lb' ub' post); simpl; [|reflexivity].
    now rewrite <- app_assoc.
Qed.

(** The index loop of the source clamps every coordinate. *)
Lemma clamp_zip_eq (v : list F) :
  clamp lower_bounds upper_bounds v (length v) = clamp_zip lower_bounds upper_bounds v.
Proof.
  unfold clamp. pose proof (clamp_loop_zip v []) as E. simpl in E. rewrite E.
  destruct (clamp_zip lower_bounds upper_bounds v); reflexivity.
Qed.

End Clamp.

Section ClampBounds.

Context {N : Num} {L : NumLaws N}.

Lemma fltb_fleb (a b : F) : fltb a b = true -> fleb a b = true.
Proof.
  intros H. rewrite fleb_fltb. destruct (fltb b a) eqn:E; [|reflexivity].
  pose proof (fltb_trans _ _ _ H E) as C. rewrite fltb_irrefl in C. discriminate.
Qed.

Lemma fleb_refl (a : F) : fleb a a = true.
Proof. now rewrite fleb_fltb, fltb_irrefl. Qed.

Lemma fltb_false_fleb (a b : F) : fltb a b = false -> fleb b a = true.
Proof. intros H. now rewrite fleb_fltb, H. Qed.

Lemma clamp1_range (l u x : F) :
  fleb l u = true ->
  fleb l (py_max l (py_min u x)) = true /\ fleb (py_max l (py_min u x)) u = true.
Proof.
  intros Hlu. unfold py_max, py_min.
  destruct (fltb x u) eqn:Exu.
  - destruct (fltb l x) eqn:Elx.
    + split; auto using fltb_fleb.
    + split; auto using fleb_refl.
  - destruct (fltb l u) eqn:Elu.
    + split; auto using fleb_refl.
    + split; auto using fleb_refl.
Qed.

Lemma clamp_zip_in_bounds (lb ub v r : list F) :
  bounds_ordered lb ub ->
  clamp_zip lb ub v = Ok r ->
  in_bounds lb ub r /\ length r = length v.
Proof.
  revert lb ub r. induction v as [|x v IH]; intros lb ub r Hord E; simpl in E.
  - inversion E; subst. split; [|reflexivity]. intros [|j] y Hy; discriminate.
  - destruct lb as [|l lb]; [discriminate|]. destruct ub as [|u ub]; [discriminate|].
    apply rbind_ok in E. destruct E as (r' & E & Er). inversion Er; subst r; clear Er.
    assert (Hord' : bounds_ordered lb ub).
    { intros j a b Ha Hb. apply (Hord (S j)); assumption. }
    destruct (IH lb ub r' Hord' E) as [Hin Hlen].
    split; [|simpl; congruence].
    intros [|j] y Hy; simpl in Hy.
    + inversion Hy; subst y. exists l, u. simpl.
      destruct (clamp1_range l u x (Hord 0%nat l u eq_refl eq_refl)); auto.
    + destruct (Hin j y Hy) as (a & b & Ha & Hb & H1 & H2). exists a, b. simpl. auto.
Qed.

(** A clamped position is within the bounds. *)
Lemma clamp_in_bounds (lb ub v r : list F) :
  bounds_ordered lb ub ->
  clamp lb ub v (length v) = Ok r ->
  in_bounds lb ub r /\ length r = length v.
Proof. rewrite clamp_zip_eq. apply clamp_zip_in_bounds. Qed.

End ClampBounds.

Section Shapes.

Context {N : Num} {R : Rand N}.

Lemma np_random_uniform_length a b n w v w' :
  np_random_uniform a b n w = Ok (v, w') -> length v = n.
Proof.
  revert w v w'. induction n as [|n IH]; intros w v w' H; simpl in H.
  - apply ret_ok in H. destruct H as [-> _]. reflexivity.
  - inv_ok H. apply ret_ok in H. destruct H as [-> _]. simpl. f_equal. eauto.
Qed.

Lemma list_set_length {A} (l : list A) i x : length (list_set l i x) = length l.
Proof.
  revert i. induction l as [|a l IH]; intros [|i]; simpl; auto.
Qed.

Lemma list_get_ok {A} (l : list A) i x : list_get l i = Ok x -> nth_error l i = Some x.
Proof. unfold list_get. destruct (nth_error l i); intros E; inversion E; auto. Qed.

Lemma clamp_loop_indices lb ub js p r :
  clamp_loop lb ub p js = Ok r -> Forall (fun j => (j < length p)%nat) js.
Proof.
  revert p. induction js as [|j js IH]; intros p H; simpl in H; [constructor|].
  apply rbind_ok in H. destruct H as (q & Hq & H).
  unfold clamp_at in Hq.
  apply rbind_ok in Hq. destruct Hq as (l & _ & Hq).
  apply rbind_ok in Hq. destruct Hq as (u & _ & Hq).
  apply rbind_ok in Hq. destruct Hq as (x & Hx & Hq).
  inversion Hq; subst q; clear Hq.
  apply list_get_ok in Hx.
  constructor.
  - apply nth_error_Some. congruence.
  - specialize (IH _ H). rewrite list_set_length in IH. exact IH.
Qed.

Lemma clamp_ok_length lb ub v n r :
  clamp lb ub v n = Ok r -> (n <= length v)%nat.
Proof.
  intros H. apply clamp_loop_indices in H. destruct n as [|n]; [lia|].
  rewrite Forall_forall in H. specialize (H n). 
  assert (In n (seq 0 (S n))) by (apply in_seq; lia). apply H in H0. lia.
Qed.

End Shapes.

Section Containment.

Context {N : Num} {R : Rand N} {L : NumLaws N} {RL : RandLaws R}.

Variable self : afsa.
Variable fitness_function : vec -> res F.
Variables lower_bounds upper_bounds : list F.
Hypothesis Hord : bounds_ordered lower_bounds upper_bounds.

Lemma clamp_good v n r :
  (length v <= n)%nat -> clamp lower_bounds upper_bounds v n = Ok r ->
  in_bounds lower_bounds upper_bounds r /\ length r = n.
Proof.
  intros Hle H. pose proof H as Hge. apply clamp_ok_length in Hge.
  assert (n = length v) by lia. subst n.
  eapply clamp_in_bounds; eauto.
Qed.

Lemma prey_sample_good cur w p w' :
  prey_sample self lower_bounds upper_bounds cur w = Ok (p, w') ->
  in_bounds lower_bounds upper_bounds p /\ length p = length cur.
Proof.
  intros H. unfold prey_sample in H. inv_ok H.
  apply lift_ok in H. destruct H as [H _].
  apply clamp_good in H; [exact H|].
  unfold vadd. rewrite map2_length. lia.
Qed.

Lemma prey_loop_good cur cf n w p w' :
  in_bounds lower_bounds upper_bounds cur ->
  prey_loop self fitness_function lower_bounds upper_bounds cur cf n w = Ok (p, w') ->
  in_bounds lower_bounds upper_bounds p /\ length p = length cur.
Proof.
  intros Hcur. revert w. induction n as [|n IH]; intros w H; simpl in H.
  - apply ret_ok in H. destruct H as [-> _]. auto.
  - inv_ok H. destruct (fltb cf a0).
    + apply ret_ok in H. destruct H as [-> _]. eapply prey_sample_good; eauto.
    + eauto.
Qed.

Lemma prey_behavior_good cur pop w p w' :
  in_bounds lower_bounds upper_bounds cur ->
  prey_behavior self fitness_function lower_bounds upper_bounds cur pop w = Ok (p, w') ->
  in_bounds lower_bounds upper_bounds p /\ length p = length cur.
Proof.
  intros Hcur H. unfold prey_behavior in H. inv_ok H. eapply prey_loop_good; eauto.
Qed.

Lemma move_towards_good cur target p :
  move_towards self lower_bounds upper_bounds cur target = Ok p ->
  in_bounds lower_bounds upper_bounds p /\ length p = length cur.
Proof.
  unfold move_towards. intros H. apply clamp_good in H; [exact H|].
  unfold vadd. rewrite map2_length. lia.
Qed.

Lemma swarm_behavior_good cur pop w p w' :
  in_bounds lower_bounds upper_bounds cur ->
  swarm_behavior self fitness_function lower_bounds upper_bounds cur pop w = Ok (p, w') ->
  in_bounds lower_bounds upper_bounds p /\ length p = length cur.
Proof.
  intros Hcur H. unfold swarm_behavior in H. inv_ok H.
  destruct (find_neighbors self cur pop) as [|nb nbs].
  - apply ret_ok in H. destruct H as [-> _]. auto.
  - inv_ok H. destruct (fltb (crowd_factor self) a0).
    + eapply prey_behavior_good; eauto.
    + inv_ok H. destruct (fltb a a1).
      * apply lift_ok in H. destruct H as [H _]. eapply move_towards_good; eauto.
      * eapply prey_behavior_good; eauto.
Qed.

Lemma follow_behavior_good cur pop w p w' :
  in_bounds lower_bounds upper_bounds cur ->
  follow_behavior self fitness_function lower_bounds upper_bounds cur pop w = Ok (p, w') ->
  in_bounds lower_bounds upper_bounds p /\ length p = length cur.
Proof.
  intros Hcur H. unfold follow_behavior in H. inv_ok H.
  destruct a0 as [[bn|] bnf].
  - destruct (fleb bnf a).
    + eapply prey_behavior_good; eauto.
    + inv_ok H. destruct (fltb (crowd_factor self) a0).
      * eapply prey_behavior_good; eauto.
      * apply lift_ok in H. destruct H as [H _]. eapply move_towards_good; eauto.
  - eapply prey_behavior_good; eauto.
Qed.

Lemma apply_behavior_good b cur pop w p w' :
  in_bounds lower_bounds upper_bounds cur ->
  apply_behavior self fitness_function lower_bounds upper_bounds b cur pop w = Ok (p, w') ->
  in_bounds lower_bounds upper_bounds p /\ length p = length cur.
Proof.
  destruct b; simpl; eauto using prey_behavior_good, swarm_behavior_good, follow_behavior_good.
Qed.

End Containment.

(** ** The generational loop as a fold *)

Section Loop.

Context {N : Num} {R : Rand N}.

Variable self : afsa.
Variable fitness_function : vec -> res F.
Variables lower_bounds upper_bounds : list F.

Lemma rmapM_Forall2 {A B} (f : A -> res B) l r :
  rmapM f l = Ok r -> Forall2 (fun a b => f a = Ok b) l r.
Proof.
  revert r. induction l as [|a l IH]; intros r H; simpl in H.
  - inversion H. constructor.
  - apply rbind_ok in H. destruct H as (b & Hb & H).
    apply rbind_ok in H. destruct H as (bs & Hbs & H).
    inversion H; subst. constructor; auto.
Qed.

Lemma fish_step_inv population best i w p best' w' :
  fish_step self fitness_function lower_bounds upper_bounds population best i w
    = Ok ((p, best'), w') ->
  exists current_fish b f w1 w2,
    nth_error population i = Some current_fish /\
    apply_behavior self fitness_function lower_bounds upper_bounds b current_fish population w1
      = Ok (p, w2) /\
    fitness_function p = Ok f /\
    best' = update_best best (p, f).
Proof.
  intros H. unfold fish_step in H. unfold incumbent, vec in *. inv_run.
  match goal with H : list_get _ _ = Ok _ |- _ => apply list_get_ok in H end.
  unfold update_best. simpl.
  match goal with H : (if ?c then _ else _) _ = _ |- _ => destruct c eqn:E end;
    inv_run; do 5 eexists; (split; [eassumption|]); (split; [eassumption|]);
    (split; [eassumption|simpl; rewrite E; reflexivity]).
Qed.

Lemma fish_loop_inv population idx best w new best' w' :
  fish_loop self fitness_function lower_bounds upper_bounds population best idx w
    = Ok ((new, best'), w') ->
  length new = length idx /\
  Forall (fun p => exists i current_fish b w1 w2,
            nth_error population i = Some current_fish /\
            apply_behavior self fitness_function lower_bounds upper_bounds b current_fish
              population w1 = Ok (p, w2)) new /\
  exists fs, rmapM fitness_function new = Ok fs /\
             best' = fold_left update_best (combine new fs) best.
Proof.
  revert best w new best' w'. induction idx as [|i idx IH]; intros best w new best' w' H;
    simpl in H.
  - inv_run. split; [reflexivity|]. split; [constructor|]. exists []. split; reflexivity.
  - apply bind_ok in H. destruct H as ([p best1] & w1 & Hstep & H).
    apply bind_ok in H. destruct H as ([rest best2] & w2 & Hloop & H).
    inv_run.
    apply fish_step_inv in Hstep.
    destruct Hstep as (cur & b & f & w3 & w4 & Hcur & Hb & Hf & ->).
    apply IH in Hloop. destruct Hloop as (Hlen & Hall & fs & Hfs & ->).
    split; [simpl; congruence|]. split.
    + constructor; [|exact Hall]. exists i, cur, b, w3, w4. auto.
    + exists (f :: fs). simpl. rewrite Hf, Hfs. simpl. split; reflexivity.
Qed.

End Loop.

(** ** Populations stay within the bounds *)

Section PopulationBounds.

Context {N : Num} {R : Rand N} {L : NumLaws N} {RL : RandLaws R}.

Variable self : afsa.
Variable fitness_function : vec -> res F.
Variables lower_bounds upper_bounds : list F.
Hypothesis Hord : bounds_ordered lower_bounds upper_bounds.

Lemma mapM_Forall2 {A B} (f : A -> M B) l w r w' :
  mapM f l w = Ok (r, w') ->
  Forall2 (fun a b => exists w1 w2, f a w1 = Ok (b, w2)) l r.
Proof.
  revert w r w'. induction l as [|a l IH]; intros w r w' H; simpl in H; inv_run.
  - constructor.
  - constructor; eauto.
Qed.

Lemma draw_coordinate_range j w x w' :
  draw_coordinate lower_bounds upper_bounds j w = Ok (x, w') ->
  exists l u, nth_error lower_bounds j = Some l /\ nth_error upper_bounds j = Some u /\
              fleb l x = true /\ fleb x u = true.
Proof.
  intros H. unfold draw_coordinate in H. inv_run.
  repeat match goal with H : list_get _ _ = Ok _ |- _ => apply list_get_ok in H end.
  unfold random_uniform in H.
  match goal with H : (let (_, _) := py_uniform ?g ?a ?b in _) = _ |- _ =>
    pose proof (py_uniform_range g a b) as Hr; destruct (py_uniform g a b) as [y g'] end.
  inv_run. simpl in Hr. do 2 eexists. repeat split; try eassumption; apply Hr; eauto.
Qed.

Lemma Forall2_seq_nth {B} (P : nat -> B -> Prop) a n r :
  Forall2 P (seq a n) r ->
  forall j x, nth_error r j = Some x -> P (a + j)%nat x.
Proof.
  revert a r. induction n as [|n IH]; intros a r H j x Hj; simpl in H; inversion H; subst.
  - destruct j; discriminate.
  - destruct j as [|j]; simpl in Hj.
    + inversion Hj; subst. now rewrite Nat.add_0_r.
    + rewrite <- Nat.add_succ_comm. eapply IH; eauto.
Qed.

Lemma initialize_population_in_bounds dimensions w population w' :
  initialize_population self lower_bounds upper_bounds dimensions w = Ok (population, w') ->
  Forall (in_bounds lower_bounds upper_bounds) population.
Proof.
  intros H. unfold initialize_population in H. apply mapM_Forall2 in H.
  assert (G : forall (l : list nat) r,
             Forall2 (fun (_ : nat) (b : list F) => exists w1 w2,
                        mapM (draw_coordinate lower_bounds upper_bounds) (seq 0 dimensions) w1
                        = Ok (b, w2)) l r ->
             Forall (in_bounds lower_bounds upper_bounds) r).
  { clear H. induction 1 as [|a b l r (w1 & w2 & Hb) _ IH]; constructor; [|exact IH].
    apply mapM_Forall2 in Hb. intros j x Hj.
    eapply Forall2_seq_nth in Hb; [|exact Hj]. destruct Hb as (w3 & w4 & Hd).
    simpl in Hd. eapply draw_coordinate_range; eauto. }
  eapply G; eauto.
Qed.

Lemma generation_in_bounds population best w new best' w' :
  Forall (in_bounds lower_bounds upper_bounds) population ->
  generation self fitness_function lower_bounds upper_bounds population best w
    = Ok ((new, best'), w') ->
  Forall (in_bounds lower_bounds upper_bounds) new.
Proof.
  intros Hpop H. unfold generation in H. apply fish_loop_inv in H.
  destruct H as (_ & Hall & _).
  rewrite Forall_forall in *. intros p Hp.
  destruct (Hall p Hp) as (i & cur & b & w1 & w2 & Hcur & Hb).
  eapply apply_behavior_good; eauto.
  apply Hpop. eapply nth_error_In; eauto.
Qed.

Lemma generations_in_bounds n population best w new best' w' :
  Forall (in_bounds lower_bounds upper_bounds) population ->
  generations self fitness_function lower_bounds upper_bounds n population best w
    = Ok ((new, best'), w') ->
  Forall (in_bounds lower_bounds upper_bounds) new.
Proof.
  revert population best w. induction n as [|n IH]; intros population best w Hpop H;
    simpl in H.
  - inv_run. exact Hpop.
  - apply bind_ok in H. destruct H as ([pop1 best1] & w1 & Hg & H).
    eapply IH; [|exact H]. eapply generation_in_bounds; eauto.
Qed.

End PopulationBounds.

(** ** The incumbent *)

Section Incumbent.

Context {N : Num} {R : Rand N}.

Variable self : afsa.
Variable fitness_function : vec -> res F.
Variables lower_bounds upper_bounds : list F.

Lemma fold_update_consistent new fs best :
  consistent fitness_function best ->
  Forall2 (fun p f => fitness_function p = Ok f) new fs ->
  consistent fitness_function (fold_left update_best (combine new fs) best).
Proof.
  intros Hb H. revert best Hb. induction H as [|p f new fs Hpf _ IH]; intros best Hb; simpl.
  - exact Hb.
  - apply IH. unfold update_best. simpl. destruct (fltb (snd best) f); [exact Hpf | exact Hb].
Qed.

Lemma generation_consistent population best w new best' w' :
  consistent fitness_function best ->
  generation self fitness_function lower_bounds upper_bounds population best w
    = Ok ((new, best'), w') ->
  consistent fitness_function best'.
Proof.
  intros Hb H. unfold generation in H. apply fish_loop_inv in H.
  destruct H as (_ & _ & fs & Hfs & ->).
  apply fold_update_consistent; [exact Hb|]. apply rmapM_Forall2. exact Hfs.
Qed.

Lemma generations_consistent n population best w new best' w' :
  consistent fitness_function best ->
  generations self fitness_function lower_bounds upper_bounds n population best w
    = Ok ((new, best'), w') ->
  consistent fitness_function best'.
Proof.
  revert population best w. induction n as [|n IH]; intros population best w Hb H;
    simpl in H.
  - inv_run. exact Hb.
  - apply bind_ok in H. destruct H as ([pop1 best1] & w1 & Hg & H).
    eapply IH; [|exact H]. eapply generation_consistent; eauto.
Qed.

Lemma Forall2_nth_error {A B} (P : A -> B -> Prop) l r i a b :
  Forall2 P l r -> nth_error l i = Some a -> nth_error r i = Some b -> P a b.
Proof.
  intros H. revert i. induction H as [|x y l r Hxy _ IH]; intros [|i] Ha Hb;
    simpl in *; try discriminate.
  - inversion Ha; inversion Hb; subst; exact Hxy.
  - eauto.
Qed.

Lemma optimize_init_inv dimensions w population best w' :
  optimize_init self fitness_function lower_bounds upper_bounds dimensions w
    = Ok ((population, best), w') ->
  exists w0 fs i,
    initialize_population self lower_bounds upper_bounds dimensions w = Ok (population, w0) /\
    rmapM fitness_function population = Ok fs /\
    np_argmax fs = Ok i /\
    nth_error population i = Some (fst best) /\
    nth_error fs i = Some (snd best).
Proof.
  intros H. unfold optimize_init in H. inv_run.
  repeat match goal with H : list_get _ _ = Ok _ |- _ => apply list_get_ok in H end.
  do 3 eexists. repeat split; eauto.
Qed.

Lemma optimize_init_consistent dimensions w population best w' :
  optimize_init self fitness_function lower_bounds upper_bounds dimensions w
    = Ok ((population, best), w') ->
  consistent fitness_function best.
Proof.
  intros H. apply optimize_init_inv in H.
  destruct H as (w0 & fs & i & _ & Hfs & _ & Hp & Hf).
  apply rmapM_Forall2 in Hfs. unfold consistent.
  exact (Forall2_nth_error _ Hfs Hp Hf).
Qed.

End Incumbent.

(** ** The incumbent is the running maximum *)

Section RunningMaximum.

Context {N : Num} {R : Rand N} {L : NumLaws N}.

Variable self : afsa.
Variable fitness_function : vec -> res F.
Variables lower_bounds upper_bounds : list F.

Lemma fold_update_max new fs best :
  length new = length fs ->
  let best' := fold_left update_best (combine new fs) best in
  In (snd best') (snd best :: fs) /\
  Forall (fun f => fleb f (snd best') = true) (snd best :: fs).
Proof.
  revert fs best. induction new as [|p new IH]; intros [|f fs] best Hlen; simpl in Hlen;
    try discriminate; simpl.
  - split; [left; reflexivity|]. constructor; [apply fleb_refl | constructor].
  - injection Hlen as Hlen. specialize (IH fs (update_best best (p, f)) Hlen).
    simpl in IH. destruct IH as [Hin Hall].
    inversion Hall as [|? ? Hhd Htl]; subst.
    unfold update_best in *. simpl in *.
    destruct (fltb (snd best) f) eqn:E; simpl in *.
    + split.
      * destruct Hin as [Hin|Hin]; [right; left; exact Hin | right; right; exact Hin].
      * constructor; [|constructor; assumption].
        eapply fleb_trans; [apply fltb_fleb; exact E | exact Hhd].
    + split.
      * destruct Hin as [Hin|Hin]; [left; exact Hin | right; right; exact Hin].
      * constructor; [exact Hhd|]. constructor; [|assumption].
        eapply fleb_trans; [apply fltb_false_fleb; exact E | exact Hhd].
Qed.

Lemma generation_max population best w new best' w' :
  generation self fitness_function lower_bounds upper_bounds population best w
    = Ok ((new, best'), w') ->
  exists fs, rmapM fitness_function new = Ok fs /\
             In (snd best') (snd best :: fs) /\
             Forall (fun f => fleb f (snd best') = true) (snd best :: fs).
Proof.
  intros H. unfold generation in H. apply fish_loop_inv in H.
  destruct H as (_ & _ & fs & Hfs & ->). exists fs. split; [exact Hfs|].
  apply fold_update_max. apply rmapM_Forall2 in Hfs.
  clear -Hfs. induction Hfs; simpl; congruence.
Qed.

Lemma generations_monotone n population best w new best' w' :
  generations self fitness_function lower_bounds upper_bounds n population best w
    = Ok ((new, best'), w') ->
  fleb (snd best) (snd best') = true.
Proof.
  revert population best w. induction n as [|n IH]; intros population best w H; simpl in H.
  - inv_run. apply fleb_refl.
  - apply bind_ok in H. destruct H as ([pop1 best1] & w1 & Hg & H).
    apply generation_max in Hg. destruct Hg as (fs & _ & _ & Hall).
    inversion Hall; subst. eapply fleb_trans; eauto.
Qed.

Lemma argmax_from_max t pre best_index best :
  nth_error (pre ++ t) best_index = Some best ->
  Forall (fun f => fleb f best = true) pre ->
  exists m, nth_error (pre ++ t) (argmax_from t (length pre) best_index best) = Some m /\
            Forall (fun f => fleb f m = true) (pre ++ t).
Proof.
  revert pre best_index best. induction t as [|x t IH]; intros pre bi best Hbi Hpre; simpl.
  - exists best. rewrite app_nil_r in *. auto.
  - replace (pre ++ x :: t) with ((pre ++ [x]) ++ t) in * by (now rewrite <- app_assoc).
    replace (S (length pre)) with (length (pre ++ [x])) by (rewrite length_app; simpl; lia).
    destruct (fltb best x) eqn:E.
    + apply IH.
      * rewrite nth_error_app1 by (rewrite length_app; simpl; lia).
        rewrite nth_error_app2 by lia. now rewrite Nat.sub_diag.
      * apply Forall_app. split; [|constructor; [apply fleb_refl | constructor]].
        eapply Forall_impl; [|exact Hpre]. intros f Hf. simpl in Hf.
        eapply fleb_trans; [exact Hf | apply fltb_fleb; exact E].
    + apply IH; [exact Hbi|].
      apply Forall_app. split; [exact Hpre|].
      constructor; [apply fltb_false_fleb; exact E | constructor].
Qed.

Lemma np_argmax_max fs i :
  np_argmax fs = Ok i ->
  exists m, nth_error fs i = Some m /\ Forall (fun f => fleb f m = true) fs.
Proof.
  destruct fs as [|x t]; simpl; intros H; [discriminate|]. inversion H; subst; clear H.
  apply (@argmax_from_max t [x] 0%nat x); [reflexivity|].
  constructor; [apply fleb_refl | constructor].
Qed.

Lemma optimize_init_max dimensions w population best w' :
  optimize_init self fitness_function lower_bounds upper_bounds dimensions w
    = Ok ((population, best), w') ->
  exists fs, rmapM fitness_function population = Ok fs /\
             In (snd best) fs /\
             Forall (fun f => fleb f (snd best) = true) fs.
Proof.
  intros H. apply optimize_init_inv in H.
  destruct H as (w0 & fs & i & _ & Hfs & Harg & _ & Hf).
  exists fs. split; [exact Hfs|].
  apply np_argmax_max in Harg. destruct Harg as (m & Hm & Hall).
  assert (m = snd best) by congruence. subst m.
  split; [eapply nth_error_In; eauto | exact Hall].
Qed.

End RunningMaximum.

(** ** Exact arithmetic satisfies the laws *)

Lemma xq_ltb_Fin (x y : Q) : xq_ltb (Fin x) (Fin y) = true <-> (x < y)%Q.
Proof.
  simpl. rewrite negb_true_iff. split.
  - intros H. apply Qnot_le_lt. intros C. apply Qle_bool_iff in C. congruence.
  - intros H. destruct (Qle_bool y x) eqn:E; [|reflexivity].
    apply Qle_bool_iff in E. exfalso. exact (Qlt_not_le _ _ H E).
Qed.

Lemma xq_ltb_Fin_false (x y : Q) : xq_ltb (Fin x) (Fin y) = false <-> (y <= x)%Q.
Proof.
  simpl. rewrite negb_false_iff. apply Qle_bool_iff.
Qed.

Lemma QNumLaws : NumLaws QNum.
Proof.
  constructor; simpl.
  - intros [|x]; [reflexivity|]. apply xq_ltb_Fin_false. apply Qle_refl.
  - intros [|x] [|y] [|z]; try (simpl; congruence).
    rewrite !xq_ltb_Fin. apply Qlt_trans.
  - reflexivity.
  - unfold xq_leb. intros x y z. rewrite !negb_true_iff.
    destruct x as [|x], y as [|y], z as [|z]; try (simpl; congruence).
    rewrite !xq_ltb_Fin_false. intros H1 H2. eapply Qle_trans; eauto.
Qed.

Lemma unit_float_range (k : Z) :
  exists u : Q, unit_float (N:=QNum) k = Fin u /\ (0 <= u)%Q /\ (u <= 1)%Q.
Proof.
  exists (Qred (inject_Z (k mod 2 ^ 53) / inject_Z (2 ^ 53))). split; [reflexivity|].
  pose proof (Z.mod_pos_bound k (2 ^ 53) ltac:(reflexivity)) as [H0 H1].
  set (m := (k mod 2 ^ 53)%Z) in *.
  split; rewrite Qred_correct; unfold Qdiv.
  - apply Qmult_le_0_compat; [unfold Qle; simpl; lia | discriminate].
  - apply Qle_shift_div_r; [reflexivity|]. unfold Qle; simpl. lia.
Qed.

Lemma scaled_range (a b : xq) (k : Z) :
  xq_leb a b = true ->
  xq_leb a (scaled (N:=QNum) a b k) = true /\ xq_leb (scaled (N:=QNum) a b k) b = true.
Proof.
  unfold scaled. destruct (unit_float_range k) as (u & -> & Hu0 & Hu1).
  unfold xq_leb. rewrite !negb_true_iff.
  destruct a as [|a], b as [|b]; cbv [fadd fmul fsub QNum xq_lift2];
    try (intros; split; reflexivity); try (intros; discriminate).
  rewrite !xq_ltb_Fin_false. intros Hab. split; rewrite !Qred_correct; nra.
Qed.

Lemma ScriptedRandLaws : RandLaws (ScriptedRand (N:=QNum)).
Proof.
  constructor.
  - intros g a b Hab. cbn [py_uniform ScriptedRand]. unfold tape_uniform.
    destruct (unit_draws g); cbn [fst]; apply scaled_range; exact Hab.
  - intros g n Hn. cbn [py_randbelow ScriptedRand]. unfold tape_randbelow.
    destruct (index_draws g); simpl; [exact Hn|]. apply Nat.mod_upper_bound. lia.
Qed.

(** ** The prey behaviour *)

Section Prey.

Context {N : Num} {R : Rand N}.

Variable self : afsa.
Variable fitness_function : vec -> res F.
Variables lower_bounds upper_bounds : list F.

Lemma draw_samples_length k (cur : vec) w samples w' :
  draw_samples self lower_bounds upper_bounds k cur w = Ok (samples, w') ->
  length samples = k.
Proof.
  revert w samples. induction k as [|k IH]; intros w samples H; simpl in H; inv_run.
  - reflexivity.
  - simpl. f_equal. eauto.
Qed.

(** What one try samples: a random direction scaled to unit length, a step
    of one visual range along it, every coordinate clamped. *)
Lemma prey_sample_inv (cur : vec) w p w' :
  prey_sample self lower_bounds upper_bounds cur w = Ok (p, w') ->
  exists direction,
    np_random_uniform (of_Z (-1)) (of_Z 1) (length cur) w = Ok (direction, w') /\
    clamp_zip lower_bounds upper_bounds
      (vadd cur (vscale (visual_range self) (vdiv direction (norm direction)))) = Ok p.
Proof.
  intros H. unfold prey_sample in H. inv_run.
  match goal with H : np_random_uniform _ _ _ _ = _ |- _ =>
    pose proof (np_random_uniform_length _ _ _ _ H) as Hlen end.
  eexists. split; [eassumption|].
  rewrite <- clamp_zip_eq.
  match goal with H : clamp _ _ ?v _ = _ |- _ =>
    replace (length v) with (length cur); [exact H|] end.
  unfold vadd, vscale, vdiv. rewrite map2_length, !length_map. lia.
Qed.

Lemma prey_loop_sound (cur : vec) cf n w p w' :
  prey_loop self fitness_function lower_bounds upper_bounds cur cf n w = Ok (p, w') ->
  exists k samples fs,
    (k <= n)%nat /\
    draw_samples self lower_bounds upper_bounds k cur w = Ok (samples, w') /\
    rmapM fitness_function samples = Ok fs /\
    ((exists earlier fs_earlier f,
         samples = earlier ++ [p] /\ fs = fs_earlier ++ [f] /\
         length earlier = length fs_earlier /\
         Forall (fun f' => fltb cf f' = false) fs_earlier /\
         fltb cf f = true)
     \/ (k = n /\ Forall (fun f' => fltb cf f' = false) fs /\ p = cur)).
Proof.
  revert w. induction n as [|n IH]; intros w H; simpl in H.
  - inv_run. exists 0%nat, [], []. split; [lia|]. split; [reflexivity|].
    split; [reflexivity|]. right. repeat split; auto.
  - apply bind_ok in H. destruct H as (s & w1 & Hs & H).
    apply bind_ok in H. destruct H as (f & w2 & Hf & H).
    apply lift_ok in Hf. destruct Hf as [Hf ->].
    destruct (fltb cf f) eqn:E.
    + apply ret_ok in H. destruct H as [-> ->].
      exists 1%nat, [s], [f]. split; [lia|]. split.
      { simpl. unfold bind. rewrite Hs. reflexivity. }
      split; [simpl; rewrite Hf; reflexivity|].
      left. exists [], [], f. repeat split; auto.
    + apply IH in H. destruct H as (k & samples & fs & Hk & Hd & Hfs & Hcase).
      exists (S k), (s :: samples), (f :: fs). split; [lia|]. split.
      { simpl. unfold bind. rewrite Hs, Hd. reflexivity. }
      split; [simpl; rewrite Hf, Hfs; reflexivity|].
      destruct Hcase as [(earlier & fs_e & f' & -> & -> & Hlen & Hall & Hf')|(-> & Hall & ->)].
      * left. exists (s :: earlier), (f :: fs_e), f'. repeat split; simpl; auto.
      * right. repeat split; auto.
Qed.

Lemma prey_loop_complete_accept (cur : vec) cf (earlier : list vec) fs_earlier p f n w w' :
  draw_samples self lower_bounds upper_bounds (S (length earlier)) cur w
    = Ok (earlier ++ [p], w') ->
  rmapM fitness_function (earlier ++ [p]) = Ok (fs_earlier ++ [f]) ->
  length earlier = length fs_earlier ->
  Forall (fun f' => fltb cf f' = false) fs_earlier ->
  fltb cf f = true ->
  (length earlier < n)%nat ->
  prey_loop self fitness_function lower_bounds upper_bounds cur cf n w = Ok (p, w').
Proof.
  revert fs_earlier n w. induction earlier as [|s earlier IH];
    intros fs_e n w Hd Hfs Hlen Hall Hf Hn.
  - destruct fs_e; [|discriminate]. destruct n as [|n]; [simpl in Hn; lia|].
    cbn [length draw_samples app] in Hd. apply bind_ok in Hd.
    destruct Hd as (s' & w1 & Hs & Hd). apply bind_ok in Hd.
    destruct Hd as (rest & w2 & Hrest & Hd). apply ret_ok in Hrest.
    destruct Hrest as [-> ->]. apply ret_ok in Hd. destruct Hd as [Hd ->].
    injection Hd as ->.
    simpl in Hfs. apply rbind_ok in Hfs. destruct Hfs as (g & Hg & Hfs).
    injection Hfs as ->.
    simpl. unfold bind. rewrite Hs. unfold lift at 1. rewrite Hg. rewrite Hf. reflexivity.
  - destruct fs_e as [|f0 fs_e]; [discriminate|]. destruct n as [|n]; [simpl in Hn; lia|].
    simpl in Hlen, Hn. injection Hlen as Hlen. inversion Hall as [|? ? Hf0 Hall']; subst.
    cbn [length draw_samples] in Hd. apply bind_ok in Hd.
    destruct Hd as (s' & w1 & Hs & Hd). apply bind_ok in Hd.
    destruct Hd as (rest & w2 & Hrest & Hd). apply ret_ok in Hd. destruct Hd as [Hd ->].
    simpl in Hd. injection Hd as E1 E2. subst s' rest.
    simpl in Hfs. apply rbind_ok in Hfs. destruct Hfs as (g & Hg & Hfs).
    apply rbind_ok in Hfs. destruct Hfs as (gs & Hgs & Hfs). injection Hfs as E1 E2.
    subst g gs.
    simpl. unfold bind. rewrite Hs. unfold lift at 1. rewrite Hg. rewrite Hf0.
    eapply IH; eauto. lia.
Qed.

Lemma prey_loop_complete_exhaust (cur : vec) cf n w samples fs w' :
  draw_samples self lower_bounds upper_bounds n cur w = Ok (samples, w') ->
  rmapM fitness_function samples = Ok fs ->
  Forall (fun f' => fltb cf f' = false) fs ->
  prey_loop self fitness_function lower_bounds upper_bounds cur cf n w = Ok (cur, w').
Proof.
  revert w samples fs. induction n as [|n IH]; intros w samples fs Hd Hfs Hall;
    simpl in Hd |- *.
  - inv_run. reflexivity.
  - apply bind_ok in Hd. destruct Hd as (s & w1 & Hs & Hd). apply bind_ok in Hd.
    destruct Hd as (rest & w2 & Hrest & Hd). apply ret_ok in Hd. destruct Hd as [-> ->].
    simpl in Hfs. apply rbind_ok in Hfs. destruct Hfs as (g & Hg & Hfs).
    apply rbind_ok in Hfs. destruct Hfs as (gs & Hgs & Hfs). injection Hfs as <-.
    inversion Hall as [|? ? Hg0 Hall']; subst.
    unfold bind. rewrite Hs. unfold lift at 1. rewrite Hg. rewrite Hg0.
    eapply IH; eauto.
Qed.


End Prey.

(** ** The search always returns *)

Section TotalityBasics.

Context {N : Num} {R : Rand N}.

Lemma list_get_total {A} (l : list A) i :
  (i < length l)%nat -> exists x, list_get l i = Ok x.
Proof.
  intros H. unfold list_get. destruct (nth_error l i) eqn:E; [eauto|].
  apply nth_error_None in E. lia.
Qed.

Lemma mapM_total {A B} (f : A -> M B) (P : B -> Prop) l :
  (forall a w, In a l -> exists b w', f a w = Ok (b, w') /\ P b) ->
  forall w, exists r w', mapM f l w = Ok (r, w') /\ length r = length l /\ Forall P r.
Proof.
  induction l as [|a l IH]; intros Hf w; simpl.
  - exists [], w. repeat split; constructor.
  - destruct (Hf a w (or_introl eq_refl)) as (b & w1 & Hb & Pb).
    destruct (IH (fun a w H => Hf a w (or_intror H)) w1) as (r & w2 & Hr & Hlen & Hall).
    exists (b :: r), w2. unfold bind. rewrite Hb, Hr. simpl. repeat split; auto.
Qed.

Lemma rmapM_total {A B} (f : A -> res B) l :
  (forall a, In a l -> exists b, f a = Ok b) ->
  exists r, rmapM f l = Ok r /\ length r = length l.
Proof.
  induction l as [|a l IH]; intros Hf; simpl.
  - exists []. split; reflexivity.
  - destruct (Hf a (or_introl eq_refl)) as (b & Hb).
    destruct (IH (fun a H => Hf a (or_intror H))) as (r & Hr & Hlen).
    exists (b :: r). rewrite Hb, Hr. simpl. split; congruence.
Qed.

Lemma clamp_zip_total (lb ub v : list F) :
  (length v <= length lb)%nat -> (length v <= length ub)%nat ->
  exists r, clamp_zip lb ub v = Ok r /\ length r = length v.
Proof.
  revert lb ub. induction v as [|x v IH]; intros lb ub Hl Hu; simpl.
  - exists []. split; reflexivity.
  - destruct lb as [|l lb]; [simpl in Hl; lia|]. destruct ub as [|u ub]; [simpl in Hu; lia|].
    simpl in Hl, Hu. destruct (IH lb ub) as (r & -> & Hr); try lia.
    simpl. eexists. split; [reflexivity|]. simpl. congruence.
Qed.

Lemma np_random_uniform_total a b n w :
  exists v w', np_random_uniform a b n w = Ok (v, w').
Proof.
  revert w. induction n as [|n IH]; intros w; simpl.
  - eexists _, _. reflexivity.
  - unfold bind, np_random_uniform1. destruct (np_uniform1 (np_rng w) a b) as [x g].
    destruct (IH (World (py_rng w) g)) as (v & w' & ->). eexists _, _. reflexivity.
Qed.

Lemma fold_left_vadd_length (dimensions : nat) (vs : list vec) (acc : vec) :
  length acc = dimensions ->
  Forall (fun v => length v = dimensions) vs ->
  length (fold_left vadd vs acc) = dimensions.
Proof.
  intros Hacc Hvs. revert acc Hacc. induction Hvs as [|v vs Hv _ IH]; intros acc Hacc; simpl.
  - exact Hacc.
  - apply IH. unfold vadd. rewrite map2_length. lia.
Qed.

Lemma unit_direction_length (d : vec) : length (unit_direction d) = length d.
Proof.
  unfold unit_direction. destruct (fltb (of_Z 0) (norm d)); [|reflexivity].
  unfold vdiv. apply length_map.
Qed.

End TotalityBasics.

Section Totality.

Context {N : Num} {R : Rand N} {RL : RandLaws R}.

Variable self : afsa.
Variable fitness_function : vec -> res F.
Variables lower_bounds upper_bounds : list F.
Variable dimensions : nat.

Hypothesis Hfish : (0 < num_fish self)%nat.
Hypothesis Hlower : (dimensions <= length lower_bounds)%nat.
Hypothesis Hupper : (dimensions <= length upper_bounds)%nat.
Hypothesis Hfit : forall v, length v = dimensions -> exists y, fitness_function v = Ok y.

Lemma draw_coordinate_total j w :
  (j < dimensions)%nat ->
  exists x w', draw_coordinate lower_bounds upper_bounds j w = Ok (x, w') /\ True.
Proof.
  intros Hj. unfold draw_coordinate, bind, lift.
  destruct (list_get_total lower_bounds (i:=j) ltac:(lia)) as (l & ->).
  destruct (list_get_total upper_bounds (i:=j) ltac:(lia)) as (u & ->).
  unfold random_uniform. destruct (py_uniform (py_rng w) l u) as [x g]. eauto.
Qed.

Lemma initialize_population_total w :
  exists population w',
    initialize_population self lower_bounds upper_bounds dimensions w = Ok (population, w') /\
    length population = num_fish self /\
    Forall (fun v => length v = dimensions) population.
Proof.
  unfold initialize_population.
  destruct (mapM_total (fun _ : nat => mapM (draw_coordinate lower_bounds upper_bounds)
                                        (seq 0 dimensions))
              (fun v => length v = dimensions) (seq 0 (num_fish self))) with (w := w)
    as (r & w' & Hr & Hlen & Hall).
  - intros _ w1 _.
    destruct (mapM_total (draw_coordinate lower_bounds upper_bounds) (fun _ => True)
                (seq 0 dimensions)) with (w := w1) as (v & w2 & Hv & Hl & _).
    + intros j w2 Hj. apply in_seq in Hj. apply draw_coordinate_total. lia.
    + exists v, w2. rewrite length_seq in Hl. auto.
  - exists r, w'. rewrite length_seq in Hlen. auto.
Qed.

Lemma clamp_total (v : list F) :
  length v = dimensions ->
  exists r, clamp lower_bounds upper_bounds v dimensions = Ok r /\ length r = dimensions.
Proof.
  intros Hv. subst dimensions. rewrite clamp_zip_eq. apply clamp_zip_total; lia.
Qed.

Lemma prey_sample_total (cur : vec) w :
  length cur = dimensions ->
  exists p w', prey_sample self lower_bounds upper_bounds cur w = Ok (p, w') /\
               length p = dimensions.
Proof.
  intros Hcur. unfold prey_sample, bind.
  destruct (np_random_uniform_total (of_Z (-1)) (of_Z 1) (length cur) w) as (d & w' & Hd).
  rewrite Hd. pose proof (np_random_uniform_length _ _ _ _ Hd) as Hlen.
  rewrite Hcur.
  destruct (clamp_total (vadd cur (vscale (visual_range self) (vdiv d (norm d)))))
    as (r & Hr & Hl).
  { unfold vadd, vscale, vdiv. rewrite map2_length, !length_map. lia. }
  unfold lift. rewrite Hr. eauto.
Qed.

Lemma prey_loop_total (cur : vec) cf n w :
  length cur = dimensions ->
  exists p w', prey_loop self fitness_function lower_bounds upper_bounds cur cf n w
               = Ok (p, w') /\ length p = dimensions.
Proof.
  intros Hcur. revert w. induction n as [|n IH]; intros w; simpl.
  - exists cur, w. auto.
  - unfold bind.
    destruct (@prey_sample_total cur w Hcur) as (p & w1 & -> & Hp).
    destruct (Hfit _ Hp) as (y & Hy). unfold lift at 1. rewrite Hy.
    destruct (fltb cf y); [exists p, w1; auto | apply IH].
Qed.

Lemma prey_behavior_total (cur : vec) (pop : list vec) w :
  length cur = dimensions ->
  exists p w', prey_behavior self fitness_function lower_bounds upper_bounds cur pop w
               = Ok (p, w') /\ length p = dimensions.
Proof.
  intros Hcur. unfold prey_behavior, bind, lift.
  destruct (Hfit _ Hcur) as (cf & ->). apply prey_loop_total. exact Hcur.
Qed.

Lemma centroid_length (vs : list vec) :
  Forall (fun v => length v = dimensions) vs ->
  length (centroid dimensions vs) = dimensions.
Proof.
  intros H. unfold centroid, vdiv. rewrite length_map.
  apply fold_left_vadd_length; [|exact H]. unfold np_zeros. apply repeat_length.
Qed.

Lemma move_towards_total (cur : vec) (target : vec) :
  length cur = dimensions -> length target = dimensions ->
  exists p, move_towards self lower_bounds upper_bounds cur target = Ok p /\
            length p = dimensions.
Proof.
  intros Hcur Htarget. unfold move_towards. rewrite Hcur. apply clamp_total.
  unfold vadd, vscale, vsub. rewrite map2_length, length_map, unit_direction_length.
  rewrite map2_length. lia.
Qed.

Lemma int_div_total a : exists ratio, int_div a (num_fish self) = Ok ratio.
Proof.
  unfold int_div. destruct (num_fish self); [lia | eauto].
Qed.

Lemma swarm_behavior_total (cur : vec) (pop : list vec) w :
  length cur = dimensions ->
  Forall (fun v => length v = dimensions) pop ->
  exists p w', swarm_behavior self fitness_function lower_bounds upper_bounds cur pop w
               = Ok (p, w') /\ length p = dimensions.
Proof.
  intros Hcur Hpop. unfold swarm_behavior, bind. unfold lift at 1.
  destruct (Hfit _ Hcur) as (cf & ->).
  assert (Hnb : Forall (fun v => length v = dimensions) (find_neighbors self cur pop)).
  { unfold find_neighbors. rewrite Forall_forall in *. intros v Hv.
    apply filter_In in Hv. apply Hpop, Hv. }
  destruct (find_neighbors self cur pop) as [|nb nbs] eqn:E.
  - exists cur, w. auto.
  - destruct (int_div_total (length (nb :: nbs))) as (ratio & Hr).
    unfold lift at 1. rewrite Hr.
    destruct (fltb (crowd_factor self) ratio); [apply prey_behavior_total; exact Hcur|].
    rewrite Hcur.
    destruct (Hfit _ (centroid_length Hnb)) as (cc & Hcc). unfold lift at 1. rewrite Hcc.
    destruct (fltb cf cc); [|apply prey_behavior_total; exact Hcur].
    destruct (@move_towards_total cur (centroid dimensions (nb :: nbs)) Hcur
                (centroid_length Hnb)) as (p & Hp & Hl).
    unfold lift. rewrite Hp. eauto.
Qed.

Lemma best_neighbor_scan_total (cur : vec) (pop : list vec) (best : option vec * F) :
  Forall (fun v => length v = dimensions) pop ->
  (forall b, fst best = Some b -> length b = dimensions) ->
  exists best', best_neighbor_scan self fitness_function cur pop best = Ok best' /\
                (forall b, fst best' = Some b -> length b = dimensions).
Proof.
  intros Hpop. revert best. induction Hpop as [|fish rest Hf _ IH]; intros best Hbest; simpl.
  - eauto.
  - destruct (in_visual_range self cur fish); [|apply IH; exact Hbest].
    destruct (Hfit _ Hf) as (y & ->). simpl.
    match goal with |- context [if ?c then _ else _] => destruct c end;
      apply IH; [|exact Hbest].
    simpl. intros b Hb. injection Hb as <-. exact Hf.
Qed.

Lemma follow_behavior_total (cur : vec) (pop : list vec) w :
  length cur = dimensions ->
  Forall (fun v => length v = dimensions) pop ->
  exists p w', follow_behavior self fitness_function lower_bounds upper_bounds cur pop w
               = Ok (p, w') /\ length p = dimensions.
Proof.
  intros Hcur Hpop. unfold follow_behavior, bind. unfold lift at 1.
  destruct (Hfit _ Hcur) as (cf & ->).
  destruct (@best_neighbor_scan_total cur pop (@pair (option vec) F None neg_inf) Hpop)
    as ([bn bf] & Hscan & Hbn).
  { simpl. discriminate. }
  unfold lift at 1. rewrite Hscan.
  destruct bn as [bn|]; [|apply prey_behavior_total; exact Hcur].
  destruct (fleb bf cf); [apply prey_behavior_total; exact Hcur|].
  destruct (int_div_total (count_near self bn pop)) as (ratio & Hr).
  unfold lift at 1. rewrite Hr.
  destruct (fltb (crowd_factor self) ratio); [apply prey_behavior_total; exact Hcur|].
  destruct (@move_towards_total cur bn Hcur (Hbn bn eq_refl)) as (p & Hp & Hl).
  unfold lift. rewrite Hp. eauto.
Qed.

Lemma random_choice_total w :
  exists b w', random_choice [prey; swarm; follow] w = Ok (b, w').
Proof.
  unfold random_choice.
  pose proof (py_randbelow_lt (py_rng w) (n:=length [prey; swarm; follow])
                ltac:(simpl; lia)) as Hlt.
  destruct (py_randbelow (py_rng w) (length [prey; swarm; follow])) as [i g].
  simpl in Hlt. destruct i as [|[|[|i]]]; simpl; eauto. lia.
Qed.

Lemma fish_step_total (pop : list vec) (best : incumbent) i w :
  Forall (fun v => length v = dimensions) pop ->
  (i < length pop)%nat ->
  exists p best' w', fish_step self fitness_function lower_bounds upper_bounds pop best i w
                     = Ok ((p, best'), w') /\ length p = dimensions.
Proof.
  intros Hpop Hi. unfold fish_step, bind.
  destruct (list_get_total pop Hi) as (cur & Hcur). unfold lift at 1. rewrite Hcur.
  assert (Hlen : length cur = dimensions).
  { rewrite Forall_forall in Hpop. apply Hpop. apply list_get_ok in Hcur.
    eapply nth_error_In; eauto. }
  destruct (random_choice_total w) as (b & w1 & ->).
  assert (Hb : exists p w', apply_behavior self fitness_function lower_bounds upper_bounds
                              b cur pop w1 = Ok (p, w') /\ length p = dimensions).
  { destruct b; simpl;
      [apply prey_behavior_total | apply swarm_behavior_total | apply follow_behavior_total];
      assumption. }
  destruct Hb as (p & w2 & -> & Hp).
  destruct (Hfit _ Hp) as (y & Hy). unfold lift. rewrite Hy.
  match goal with |- context [if ?c then _ else _] => destruct c end; unfold ret; eauto.
Qed.

Lemma fish_loop_total (pop : list vec) (best : incumbent) idx w :
  Forall (fun v => length v = dimensions) pop ->
  Forall (fun i => (i < length pop)%nat) idx ->
  exists new best' w', fish_loop self fitness_function lower_bounds upper_bounds pop best idx w
                       = Ok ((new, best'), w') /\
                       length new = length idx /\
                       Forall (fun v => length v = dimensions) new.
Proof.
  intros Hpop Hidx. revert best w. induction Hidx as [|i idx Hi _ IH]; intros best w; simpl.
  - exists [], best, w. repeat split; constructor.
  - unfold bind.
    destruct (@fish_step_total pop best i w Hpop Hi) as (p & best1 & w1 & -> & Hp).
    destruct (IH best1 w1) as (new & best2 & w2 & -> & Hlen & Hall).
    exists (p :: new), best2, w2. unfold ret. simpl. repeat split; auto.
Qed.

Lemma generation_total (pop : list vec) (best : incumbent) w :
  Forall (fun v => length v = dimensions) pop ->
  length pop = num_fish self ->
  exists new best' w', generation self fitness_function lower_bounds upper_bounds pop best w
                       = Ok ((new, best'), w') /\
                       length new = num_fish self /\
                       Forall (fun v => length v = dimensions) new.
Proof.
  intros Hpop Hlen. unfold generation.
  destruct (@fish_loop_total pop best (seq 0 (num_fish self)) w Hpop)
    as (new & best' & w' & Hrun & Hl & Hall).
  { rewrite Forall_forall. intros i Hi. apply in_seq in Hi. lia. }
  rewrite length_seq in Hl. eauto 10.
Qed.

Lemma generations_total n (pop : list vec) (best : incumbent) w :
  Forall (fun v => length v = dimensions) pop ->
  length pop = num_fish self ->
  exists new best' w', generations self fitness_function lower_bounds upper_bounds n pop best w
                       = Ok ((new, best'), w').
Proof.
  revert pop best w. induction n as [|n IH]; intros pop best w Hpop Hlen; simpl.
  - unfold ret. eauto.
  - unfold bind.
    destruct (@generation_total pop best w Hpop Hlen) as (new & best1 & w1 & -> & Hl & Hall).
    apply IH; assumption.
Qed.

Lemma argmax_from_lt (t : list F) i best_index best :
  (best_index < i)%nat -> (argmax_from t i best_index best < i + length t)%nat.
Proof.
  revert i best_index best. induction t as [|x t IH]; intros i bi best Hbi; simpl.
  - lia.
  - destruct (fltb best x).
    + specialize (IH (S i) i x ltac:(lia)). lia.
    + specialize (IH (S i) bi best ltac:(lia)). lia.
Qed.

Lemma np_argmax_total (fs : list F) :
  (0 < length fs)%nat -> exists i, np_argmax fs = Ok i /\ (i < length fs)%nat.
Proof.
  destruct fs as [|x t]; simpl; intros H; [lia|].
  eexists. split; [reflexivity|].
  pose proof (@argmax_from_lt t 1 0 x ltac:(lia)). lia.
Qed.

Lemma optimize_init_total w :
  exists pop best w', optimize_init self fitness_function lower_bounds upper_bounds
                        dimensions w = Ok ((pop, best), w') /\
                      length pop = num_fish self /\
                      Forall (fun v => length v = dimensions) pop.
Proof.
  unfold optimize_init, bind.
  destruct (initialize_population_total w) as (pop & w1 & -> & Hlen & Hall).
  destruct (@rmapM_total _ _ fitness_function pop) as (fs & Hfs & Hl).
  { intros v Hv. rewrite Forall_forall in Hall. apply Hfit. apply Hall. exact Hv. }
  unfold lift at 1. rewrite Hfs.
  destruct (@np_argmax_total fs ltac:(lia)) as (i & Hi & Hlt).
  unfold lift at 1. rewrite Hi.
  destruct (list_get_total pop (i:=i) ltac:(lia)) as (sol & Hsol).
  destruct (list_get_total fs (i:=i) ltac:(lia)) as (val & Hval).
  unfold lift. rewrite Hsol, Hval. unfold ret. eauto 10.
Qed.

Lemma optimize_total w :
  exists result self' w', optimize self fitness_function lower_bounds upper_bounds
                            dimensions w = Ok ((result, self'), w').
Proof.
  unfold optimize, bind.
  destruct (optimize_init_total w) as (pop & best & w1 & -> & Hlen & Hall).
  destruct (@generations_total (max_iterations self) pop best w1 Hall Hlen)
    as (new & best' & w2 & ->).
  unfold ret. eauto.
Qed.

End Totality.

(** ** The invariants of a run *)

Section Run.

Context {N : Num} {R : Rand N}.

(** Every population of a run of [optimize] is the population after some
    number of generations: the loop composes. *)
Lemma generations_split (self : afsa) (fitness_function : vec -> res F)
    (lower_bounds upper_bounds : list F) (a b : nat) population best w :
  generations self fitness_function lower_bounds upper_bounds (a + b) population best w
  = bind (generations self fitness_function lower_bounds upper_bounds a population best)
         (fun pb => generations self fitness_function lower_bounds upper_bounds b
                      (fst pb) (snd pb)) w.
Proof.
  revert population best w. induction a as [|a IH]; intros population best w; simpl.
  - reflexivity.
  - unfold bind.
    destruct (generation self fitness_function lower_bounds upper_bounds population best w)
      as [[[pop1 best1] w1]|e]; [|reflexivity].
    rewrite IH. reflexivity.
Qed.




End Run.

(** ** The swarm behaviour *)

Section Swarm.

Context {N : Num} {R : Rand N}.

Variable self : afsa.
Variable fitness_function : vec -> res F.
Variables lower_bounds upper_bounds : list F.


End Swarm.

(** ** No validation precedes the search *)

Section NoValidation.

Context {N : Num} {R : Rand N} {RL : RandLaws R}.

Lemma sum_over_total (n : nat) (op : F -> F -> F) (solution xs : list F) :
  (n <= length solution)%nat -> (n <= length xs)%nat ->
  exists y, sum_over n op solution xs = Ok y.
Proof.
  intros Hs Hx. unfold sum_over.
  destruct (@rmapM_total _ _ (fun i => rbind (list_get solution i) (fun s =>
                              rbind (list_get xs i) (fun x => Ok (op s x)))) (seq 0 n))
    as (terms & -> & _).
  - intros i Hi. apply in_seq in Hi.
    destruct (list_get_total solution (i:=i) ltac:(lia)) as (s & ->).
    destruct (list_get_total xs (i:=i) ltac:(lia)) as (x & ->). simpl. eauto.
  - simpl. eauto.
Qed.

Lemma fitness_function_total (self : traffic_signal_optimizer)
    (traffic_volumes queue_lengths waiting_times : list F)
    (emergency_priority : option (list F)) (solution : vec) :
  length solution = num_phases self ->
  (num_phases self <= length traffic_volumes)%nat ->
  (num_phases self <= length queue_lengths)%nat ->
  (num_phases self <= length waiting_times)%nat ->
  (forall ep, emergency_priority = Some ep -> (num_phases self <= length ep)%nat) ->
  exists y, fitness_function self solution traffic_volumes queue_lengths waiting_times
              emergency_priority = Ok y.
Proof.
  intros Hs Hv Hq Hw He. unfold fitness_function.
  destruct (fltb (cycle_time_constraint self) (np_sum solution)); [eauto|].
  destruct (@sum_over_total (num_phases self) fmul solution traffic_volumes) as (t & ->);
    try lia.
  destruct (@sum_over_total (num_phases self) fmul solution queue_lengths) as (q & ->);
    try lia.
  destruct (@sum_over_total (num_phases self) fdiv solution waiting_times) as (x & ->);
    try lia.
  simpl. destruct emergency_priority as [ep|]; simpl; [|eauto].
  destruct (@sum_over_total (num_phases self) fmul solution ep) as (e & ->);
    [lia | apply He; reflexivity |]. simpl. eauto.
Qed.

(** C8, as the code has it. [optimize] checks nothing about the bounds: given
    at least [dimensions] lower and upper bounds, in whatever order, a swarm
    of at least one fish and an objective defined on positions, it creates the
    population, runs the search and returns a result. *)
Theorem optimize_accepts_any_bounds (self : afsa) (fitness_function : vec -> res F)
    (lower_bounds upper_bounds : list F) (dimensions : nat) (w : world) :
  (0 < num_fish self)%nat ->
  (dimensions <= length lower_bounds)%nat ->
  (dimensions <= length upper_bounds)%nat ->
  (forall v, length v = dimensions -> exists y, fitness_function v = Ok y) ->
  exists population best w0 result self' w',
    optimize_init self fitness_function lower_bounds upper_bounds dimensions w
      = Ok ((population, best), w0) /\
    length population = num_fish self /\
    optimize self fitness_function lower_bounds upper_bounds dimensions w
      = Ok ((result, self'), w').
Proof.
  intros Hfish Hl Hu Hfit.
  destruct (optimize_init_total self fitness_function lower_bounds upper_bounds
              Hfish Hl Hu Hfit w) as (pop & best & w0 & Hinit & Hlen & _).
  destruct (optimize_total self fitness_function lower_bounds upper_bounds
              Hfish Hl Hu Hfit w) as (result & self' & w' & Hrun).
  exists pop, best, w0, result, self', w'. auto.
Qed.

(** C9, as the code has it. [optimize_signal_timings] checks nothing about
    the traffic context: given vectors of at least [num_phases] entries, whatever
    the waiting times, it runs the search and returns a result. *)
Theorem optimize_signal_timings_accepts_any_context (self : traffic_signal_optimizer)
    (traffic_volumes queue_lengths waiting_times : list F)
    (emergency_priority : option (list F)) (w : world) :
  (0 < num_fish (afsa_obj self))%nat ->
  (num_phases self <= length traffic_volumes)%nat ->
  (num_phases self <= length queue_lengths)%nat ->
  (num_phases self <= length waiting_times)%nat ->
  (forall ep, emergency_priority = Some ep -> (num_phases self <= length ep)%nat) ->
  exists result afsa' w',
    optimize_signal_timings self traffic_volumes queue_lengths waiting_times
      emergency_priority w = Ok ((result, afsa'), w').
Proof.
  intros Hfish Hv Hq Hw He. unfold optimize_signal_timings, bind.
  destruct (@optimize_total _ _ RL (afsa_obj self)
              (fun solution => fitness_function self solution traffic_volumes queue_lengths
                                 waiting_times emergency_priority)
              (repeat (min_green_time self) (num_phases self))
              (repeat (max_green_time self) (num_phases self))
              (num_phases self) Hfish) with (w := w)
    as ([sol val] & afsa' & w' & Hrun).
  - rewrite repeat_length. lia.
  - rewrite repeat_length. lia.
  - intros v Hlen. apply fitness_function_total; assumption.
  - rewrite Hrun. unfold ret. eauto.
Qed.

End NoValidation.

(** ** Stale state of the object *)

Section Stale.

Context {N : Num} {R : Rand N}.

(** C10. [optimize] never reads the best solution and best fitness an earlier
    call left in the object: whatever they are, the call returns the same pair
    and leaves the object in the same state. *)
Theorem optimize_ignores_stale_best (self : afsa) (stale_solution : option vec)
    (stale_fitness : F) (fitness_function : vec -> res F)
    (lower_bounds upper_bounds : list F) (dimensions : nat) (w : world) :
  optimize (Afsa (num_fish self) (max_iterations self) (visual_range self)
                 (crowd_factor self) (step_size self) (try_number self)
                 stale_solution stale_fitness)
           fitness_function lower_bounds upper_bounds dimensions w
  = optimize self fitness_function lower_bounds upper_bounds dimensions w.
Proof.
  destruct self as [nf mi vr cf ss tn bs bf]. reflexivity.
Qed.

End Stale.

(** ** The result is a function of the inputs and of the draws *)

Section Reproducible.

Context {N : Num}.

Variables R1 R2 : Rand N.
Variable py_related : @PyRng N R1 -> @PyRng N R2 -> Prop.
Variable np_related : @NpRng N R1 -> @NpRng N R2 -> Prop.
Hypothesis Hdraws : same_draws R1 R2 py_related np_related.

Notation "m1 ~ m2" := (alike py_related np_related m1 m2) (at level 70).

Lemma alike_ret {A} (a : A) : ret (R:=R1) a ~ ret (R:=R2) a.
Proof. intros w1 w2 Hw. simpl. auto. Qed.

Lemma alike_lift {A} (r : res A) : lift (R:=R1) r ~ lift (R:=R2) r.
Proof. intros w1 w2 Hw. unfold lift. destruct r; simpl; auto. Qed.

Lemma alike_bind {A B} (m1 : M (R:=R1) A) (m2 : M (R:=R2) A)
    (k1 : A -> M (R:=R1) B) (k2 : A -> M (R:=R2) B) :
  m1 ~ m2 -> (forall a, k1 a ~ k2 a) -> bind m1 k1 ~ bind m2 k2.
Proof.
  intros Hm Hk w1 w2 Hw. unfold bind. specialize (Hm w1 w2 Hw).
  unfold same_outcome in Hm.
  destruct (m1 w1) as [[a1 w1']|e1], (m2 w2) as [[a2 w2']|e2]; try contradiction.
  - destruct Hm as [-> Hw']. apply Hk. exact Hw'.
  - exact Hm.
Qed.

Lemma alike_random_uniform a b : random_uniform (R:=R1) a b ~ random_uniform (R:=R2) a b.
Proof.
  intros w1 w2 [Hpy Hnp]. unfold random_uniform.
  destruct Hdraws as (Hu & _ & _). specialize (Hu _ _ a b Hpy).
  destruct (py_uniform (py_rng w1) a b), (py_uniform (py_rng w2) a b). simpl in *.
  destruct Hu. repeat split; auto.
Qed.

Lemma alike_random_choice {A} (l : list A) :
  random_choice (R:=R1) l ~ random_choice (R:=R2) l.
Proof.
  intros w1 w2 [Hpy Hnp]. unfold random_choice. destruct l as [|x l]; [reflexivity|].
  destruct Hdraws as (_ & Hc & _). specialize (Hc _ _ (length (x :: l)) Hpy).
  destruct (py_randbelow (py_rng w1) (length (x :: l))) as [i g],
           (py_randbelow (py_rng w2) (length (x :: l))) as [i' g']. simpl fst in Hc.
  simpl snd in Hc. destruct Hc as [<- Hg].
  destruct (nth_error (x :: l) i); simpl; repeat split; auto.
Qed.

Lemma alike_np_random_uniform1 a b :
  np_random_uniform1 (R:=R1) a b ~ np_random_uniform1 (R:=R2) a b.
Proof.
  intros w1 w2 [Hpy Hnp]. unfold np_random_uniform1.
  destruct Hdraws as (_ & _ & Hu). specialize (Hu _ _ a b Hnp).
  destruct (np_uniform1 (np_rng w1) a b), (np_uniform1 (np_rng w2) a b). simpl in *.
  destruct Hu. repeat split; auto.
Qed.

Lemma alike_if {A} (c : bool) (m1 m1' : M (R:=R1) A) (m2 m2' : M (R:=R2) A) :
  m1 ~ m2 -> m1' ~ m2' -> (if c then m1 else m1') ~ (if c then m2 else m2').
Proof. destruct c; auto. Qed.

Lemma alike_np_random_uniform a b n :
  np_random_uniform (R:=R1) a b n ~ np_random_uniform (R:=R2) a b n.
Proof.
  induction n as [|n IH]; simpl.
  - apply alike_ret.
  - apply alike_bind; [apply alike_np_random_uniform1|]. intros x.
    apply alike_bind; [exact IH|]. intros xs. apply alike_ret.
Qed.

Lemma alike_mapM {A B} (f1 : A -> M (R:=R1) B) (f2 : A -> M (R:=R2) B) l :
  (forall a, f1 a ~ f2 a) -> mapM f1 l ~ mapM f2 l.
Proof.
  intros Hf. induction l as [|a l IH]; simpl.
  - apply alike_ret.
  - apply alike_bind; [apply Hf|]. intros b.
    apply alike_bind; [exact IH|]. intros bs. apply alike_ret.
Qed.

Variable self : afsa.
Variable fitness_function : vec -> res F.
Variables lower_bounds upper_bounds : list F.

Ltac step :=
  repeat first
    [ apply alike_ret
    | apply alike_lift
    | apply alike_random_uniform
    | apply alike_random_choice
    | apply alike_np_random_uniform
    | apply alike_if
    | apply alike_bind; [|intros ?] ].

Lemma alike_initialize_population dimensions :
  initialize_population (R:=R1) self lower_bounds upper_bounds dimensions
  ~ initialize_population (R:=R2) self lower_bounds upper_bounds dimensions.
Proof.
  unfold initialize_population. apply alike_mapM. intros _. apply alike_mapM. intros j.
  unfold draw_coordinate. step.
Qed.

Lemma alike_prey_sample cur :
  prey_sample (R:=R1) self lower_bounds upper_bounds cur
  ~ prey_sample (R:=R2) self lower_bounds upper_bounds cur.
Proof. unfold prey_sample. step. Qed.

Lemma alike_prey_loop cur cf n :
  prey_loop (R:=R1) self fitness_function lower_bounds upper_bounds cur cf n
  ~ prey_loop (R:=R2) self fitness_function lower_bounds upper_bounds cur cf n.
Proof.
  induction n as [|n IH]; simpl; [apply alike_ret|].
  apply alike_bind; [apply alike_prey_sample|]. intros p.
  apply alike_bind; [apply alike_lift|]. intros f.
  apply alike_if; [apply alike_ret | exact IH].
Qed.

Lemma alike_prey_behavior cur pop :
  prey_behavior (R:=R1) self fitness_function lower_bounds upper_bounds cur pop
  ~ prey_behavior (R:=R2) self fitness_function lower_bounds upper_bounds cur pop.
Proof.
  unfold prey_behavior. apply alike_bind; [apply alike_lift|]. intros cf.
  apply alike_prey_loop.
Qed.

Lemma alike_swarm_behavior cur pop :
  swarm_behavior (R:=R1) self fitness_function lower_bounds upper_bounds cur pop
  ~ swarm_behavior (R:=R2) self fitness_function lower_bounds upper_bounds cur pop.
Proof.
  unfold swarm_behavior. apply alike_bind; [apply alike_lift|]. intros cf.
  destruct (find_neighbors self cur pop); [apply alike_ret|].
  apply alike_bind; [apply alike_lift|]. intros ratio.
  apply alike_if; [apply alike_prey_behavior|].
  apply alike_bind; [apply alike_lift|]. intros cc.
  apply alike_if; [apply alike_lift | apply alike_prey_behavior].
Qed.

Lemma alike_follow_behavior cur pop :
  follow_behavior (R:=R1) self fitness_function lower_bounds upper_bounds cur pop
  ~ follow_behavior (R:=R2) self fitness_function lower_bounds upper_bounds cur pop.
Proof.
  unfold follow_behavior. apply alike_bind; [apply alike_lift|]. intros cf.
  apply alike_bind; [apply alike_lift|]. intros [[bn|] bf];
    [|apply alike_prey_behavior].
  apply alike_if; [apply alike_prey_behavior|].
  apply alike_bind; [apply alike_lift|]. intros ratio.
  apply alike_if; [apply alike_prey_behavior | apply alike_lift].
Qed.

Lemma alike_fish_step pop best i :
  fish_step (R:=R1) self fitness_function lower_bounds upper_bounds pop best i
  ~ fish_step (R:=R2) self fitness_function lower_bounds upper_bounds pop best i.
Proof.
  unfold fish_step. apply alike_bind; [apply alike_lift|]. intros cur.
  apply alike_bind; [apply alike_random_choice|]. intros b.
  apply alike_bind.
  { destruct b; simpl;
      [apply alike_prey_behavior | apply alike_swarm_behavior | apply alike_follow_behavior]. }
  intros p. apply alike_bind; [apply alike_lift|]. intros f.
  apply alike_if; apply alike_ret.
Qed.

Lemma alike_fish_loop pop idx best :
  fish_loop (R:=R1) self fitness_function lower_bounds upper_bounds pop best idx
  ~ fish_loop (R:=R2) self fitness_function lower_bounds upper_bounds pop best idx.
Proof.
  revert best. induction idx as [|i idx IH]; intros best; simpl; [apply alike_ret|].
  apply alike_bind; [apply alike_fish_step|]. intros [p best1].
  apply alike_bind; [apply IH|]. intros [rest best2]. apply alike_ret.
Qed.

Lemma alike_generations n pop best :
  generations (R:=R1) self fitness_function lower_bounds upper_bounds n pop best
  ~ generations (R:=R2) self fitness_function lower_bounds upper_bounds n pop best.
Proof.
  revert pop best. induction n as [|n IH]; intros pop best; simpl; [apply alike_ret|].
  apply alike_bind; [apply alike_fish_loop|]. intros [new best1]. apply IH.
Qed.

Lemma alike_optimize dimensions :
  optimize (R:=R1) self fitness_function lower_bounds upper_bounds dimensions
  ~ optimize (R:=R2) self fitness_function lower_bounds upper_bounds dimensions.
Proof.
  unfold optimize. apply alike_bind.
  - unfold optimize_init. apply alike_bind; [apply alike_initialize_population|].
    intros pop. step.
  - intros [pop best]. apply alike_bind; [apply alike_generations|].
    intros [new best']. apply alike_ret.
Qed.

End Reproducible.

Section ReproducibleTimings.

Context {N : Num}.

Variables R1 R2 : Rand N.
Variable py_related : @PyRng N R1 -> @PyRng N R2 -> Prop.
Variable np_related : @NpRng N R1 -> @NpRng N R2 -> Prop.
Hypothesis Hdraws : same_draws R1 R2 py_related np_related.

(** C5, as the code has it. The optimizer has no seed parameter; it draws
    from the two ambient generators.  Two runs on the same inputs in which the
    generators answer alike return the same result, or raise the same
    exception. *)
Theorem same_draws_same_result (optimizer : traffic_signal_optimizer)
    (traffic_volumes queue_lengths waiting_times : list F)
    (emergency_priority : option (list F))
    (w1 : world (R:=R1)) (w2 : world (R:=R2)) :
  related py_related np_related w1 w2 ->
  returned fst (optimize_signal_timings optimizer traffic_volumes queue_lengths
                  waiting_times emergency_priority w1)
  = returned fst (optimize_signal_timings optimizer traffic_volumes queue_lengths
                    waiting_times emergency_priority w2).
Proof.
  intros Hw.
  assert (H : alike py_related np_related
                (optimize_signal_timings (R:=R1) optimizer traffic_volumes queue_lengths
                   waiting_times emergency_priority)
                (optimize_signal_timings (R:=R2) optimizer traffic_volumes queue_lengths
                   waiting_times emergency_priority)).
  { unfold optimize_signal_timings. apply alike_bind; [apply alike_optimize; exact Hdraws|].
    intros [[sol val] afsa']. apply alike_ret. }
  specialize (H w1 w2 Hw). unfold same_outcome in H. unfold returned.
  destruct (optimize_signal_timings optimizer traffic_volumes queue_lengths waiting_times
              emergency_priority w1) as [[a1 w1']|e1],
           (optimize_signal_timings optimizer traffic_volumes queue_lengths waiting_times
              emergency_priority w2) as [[a2 w2']|e2]; try contradiction.
  - destruct H as [-> _]. reflexivity.
  - congruence.
Qed.

End ReproducibleTimings.

(** *** Tapes that replay the same draws *)

Lemma congruent_same_draws (N : Num) :
  same_draws (ScriptedRand (N:=N)) (ScriptedRand (N:=N)) congruent_tapes congruent_draws.
Proof.
  assert (Hs : forall a b k k', (k mod 2 ^ 53 = k' mod 2 ^ 53)%Z ->
                 scaled (N:=N) a b k = scaled a b k').
  { intros a b k k' E. unfold scaled, unit_float. rewrite E. reflexivity. }
  split; [|split].
  - intros [u i] [u' i'] a b [Hi Hu]. cbn [py_uniform ScriptedRand]. unfold tape_uniform.
    cbn [unit_draws index_draws] in *. subst i'.
    destruct Hu as [|k k' u u' Hk Hu]; cbn [fst snd].
    + split; [reflexivity|]. split; [reflexivity | constructor].
    + split; [apply Hs; exact Hk|]. split; [reflexivity | exact Hu].
  - intros [u i] [u' i'] n [Hi Hu]. cbn [py_randbelow ScriptedRand]. unfold tape_randbelow.
    cbn [unit_draws index_draws] in *. subst i'.
    destruct i as [|j t]; cbn [fst snd].
    + split; [reflexivity|]. split; [reflexivity | exact Hu].
    + split; [reflexivity|]. split; [reflexivity | exact Hu].
  - intros u u' a b Hu. cbn [np_uniform1 ScriptedRand]. unfold np_tape_uniform1.
    destruct Hu as [|k k' u u' Hk Hu]; cbn [fst snd].
    + split; [reflexivity | constructor].
    + split; [apply Hs; exact Hk | exact Hu].
Qed.

(** *** The invariants on the worked scenario *)

Lemma scenario_bounds_ordered : bounds_ordered (N:=QNum) Scenario.lower Scenario.upper.
Proof.
  intros [|[|j]] l u Hl Hu; simpl in Hl, Hu;
    try (inversion Hl; inversion Hu; subst; reflexivity).
  destruct j; discriminate.
Qed.




(** *** Runs without validation *)

Lemma optimize_accepts_any_bounds_witness :
  exists population best w0 result self' w',
    optimize_init (R:=ScriptedRand) Scenario.swarm2 (fun v => Ok (np_sum v))
      [Scenario.q 10; Scenario.q 20] [Scenario.q 15; Scenario.q 15] 2 Scenario.w0
      = Ok ((population, best), w0) /\
    length population = num_fish Scenario.swarm2 /\
    optimize (R:=ScriptedRand) Scenario.swarm2 (fun v => Ok (np_sum v))
      [Scenario.q 10; Scenario.q 20] [Scenario.q 15; Scenario.q 15] 2 Scenario.w0
      = Ok ((result, self'), w').
Proof.
  apply (@optimize_accepts_any_bounds QNum ScriptedRand ScriptedRandLaws).
  - simpl. lia.
  - simpl. lia.
  - simpl. lia.
  - intros v _. eexists. reflexivity.
Defined.

(** The bounds of the validator example, lower [10, 20] above upper
    [15, 15] in the second coordinate: the search runs its hundred iterations
    and returns the position (10, 20) with fitness 0.48. *)
Lemma optimize_inverted_bounds_returns :
  returned fst (optimize (@afsa_default FloatNum) Binary64.objective
                  [10; 20]%float [15; 15]%float 2 Binary64.quiet)
  = Ok ([10; 20]%float, 0.48%float).
Proof. vm_compute. reflexivity. Qed.

Lemma optimize_signal_timings_accepts_any_context_witness :
  exists result afsa' w',
    optimize_signal_timings (R:=ScriptedRand) Scenario.optimizer Scenario.volumes
      Scenario.queues [Scenario.q (-5); Scenario.q 50] None Scenario.w0
    = Ok ((result, afsa'), w').
Proof.
  apply (@optimize_signal_timings_accepts_any_context QNum ScriptedRand ScriptedRandLaws).
  - simpl. lia.
  - simpl. lia.
  - simpl. lia.
  - simpl. lia.
  - intros ep H. discriminate.
Defined.

(** A waiting time of -5 s: no exception; the search returns the green times
    (10, 10) with the fitness 0.2 (10 / -5 + 10 / 50) = -0.36. *)
Lemma optimize_signal_timings_negative_wait_returns :
  returned (fun r => (green_times (fst r), fitness (fst r)))
    (optimize_signal_timings Binary64.optimizer Binary64.volumes Binary64.queues
       Binary64.negative_waits None Binary64.quiet)
  = Ok ([10; 10]%float, (-0.36000000000000004)%float).
Proof. vm_compute. reflexivity. Qed.

(** *** The fitness of the closed-form optimum *)


(** *** A swarm step in binary64 *)


(** *** Draws and results *)

Lemma same_draws_same_result_witness :
  returned fst (optimize_signal_timings Scenario.optimizer Scenario.volumes Scenario.queues
                  Scenario.waits None Scenario.w0)
  = returned fst (optimize_signal_timings Scenario.optimizer Scenario.volumes
                    Scenario.queues Scenario.waits None Scenario.w0_shifted).
Proof.
  apply (@same_draws_same_result QNum ScriptedRand ScriptedRand congruent_tapes
           congruent_draws (congruent_same_draws QNum)).
  split; [split; [reflexivity|]|]; repeat constructor.
Defined.

(** The same optimizer on the same traffic context, twice: with every draw
    0 the result is (10, 10); with a first draw of 1/2 it is (65, 10).  No
    argument of the call tells the two runs apart. *)
Lemma identical_inputs_different_results :
  let run w :=
    returned (fun r => (green_times (fst r), fitness (fst r)))
      (optimize_signal_timings Binary64.optimizer Binary64.volumes Binary64.queues
         Binary64.waits None w) in
  run Binary64.quiet = Ok ([10; 10]%float, 0.44000000000000006%float) /\
  run Binary64.half_first = Ok ([65; 10]%float, 2.64%float) /\
  run Binary64.quiet <> run Binary64.half_first.
Proof.
  intros run.
  assert (H1 : run Binary64.quiet = Ok ([10; 10]%float, 0.44000000000000006%float))
    by (vm_compute; reflexivity).
  assert (H2 : run Binary64.half_first = Ok ([65; 10]%float, 2.64%float))
    by (vm_compute; reflexivity).
  split; [exact H1|]. split; [exact H2|].
  rewrite H1, H2. intros E. inversion E.
Qed.

(** * Further properties of the optimizer *)

(** ** Where a new position comes from *)

Section Origin.

Context {N : Num} {R : Rand N}.

Variable self : afsa.
Variable fitness_function : vec -> res F.
Variables lower_bounds upper_bounds : list F.

Lemma clamp_loop_length js (p r : vec) :
  clamp_loop lower_bounds upper_bounds p js = Ok r -> length r = length p.
Proof.
  revert p. induction js as [|j js IH]; intros p H; simpl in H.
  - inversion H. reflexivity.
  - apply rbind_ok in H. destruct H as (q & Hq & H). apply IH in H. rewrite H.
    unfold clamp_at in Hq. inv_run. apply list_set_length.
Qed.

Lemma clamp_length (v : vec) n r :
  (length v <= n)%nat -> clamp lower_bounds upper_bounds v n = Ok r -> length r = n.
Proof.
  intros Hle H. pose proof H as Hge. apply clamp_ok_length in Hge.
  apply clamp_loop_length in H. lia.
Qed.

Lemma prey_sample_length (cur : vec) w p w' :
  prey_sample self lower_bounds upper_bounds cur w = Ok (p, w') -> length p = length cur.
Proof.
  intros H. unfold prey_sample in H. inv_run.
  match goal with H : clamp _ _ _ _ = _ |- _ => apply clamp_length in H; [exact H|] end.
  unfold vadd. rewrite map2_length. lia.
Qed.

Lemma prey_loop_length (cur : vec) cf n w p w' :
  prey_loop self fitness_function lower_bounds upper_bounds cur cf n w = Ok (p, w') ->
  length p = length cur.
Proof.
  revert w. induction n as [|n IH]; intros w H; simpl in H.
  - inv_run. reflexivity.
  - apply bind_ok in H. destruct H as (s & w1 & Hs & H).
    apply bind_ok in H. destruct H as (f & w2 & Hf & H).
    destruct (fltb cf f).
    + inv_run. eapply prey_sample_length; eauto.
    + eauto.
Qed.

Lemma prey_behavior_length (cur : vec) (pop : list vec) w p w' :
  prey_behavior self fitness_function lower_bounds upper_bounds cur pop w = Ok (p, w') ->
  length p = length cur.
Proof.
  intros H. unfold prey_behavior in H. apply bind_ok in H.
  destruct H as (cf & w1 & _ & H). eapply prey_loop_length; eauto.
Qed.

Lemma move_towards_length (cur target p : vec) :
  move_towards self lower_bounds upper_bounds cur target = Ok p -> length p = length cur.
Proof.
  unfold move_towards. intros H. apply clamp_length in H; [exact H|].
  unfold vadd. rewrite map2_length. lia.
Qed.

Lemma apply_behavior_length b (cur : vec) (pop : list vec) w p w' :
  apply_behavior self fitness_function lower_bounds upper_bounds b cur pop w = Ok (p, w') ->
  length p = length cur.
Proof.
  destruct b; simpl; intros H.
  - eapply prey_behavior_length; eauto.
  - unfold swarm_behavior in H. apply bind_ok in H. destruct H as (cf & w1 & _ & H).
    destruct (find_neighbors self cur pop); [inv_run; reflexivity|].
    apply bind_ok in H. destruct H as (ratio & w2 & _ & H).
    destruct (fltb (crowd_factor self) ratio); [eapply prey_behavior_length; eauto|].
    apply bind_ok in H. destruct H as (cc & w3 & _ & H).
    destruct (fltb cf cc); [|eapply prey_behavior_length; eauto].
    apply lift_ok in H. destruct H as [H _]. eapply move_towards_length; eauto.
  - unfold follow_behavior in H. apply bind_ok in H. destruct H as (cf & w1 & _ & H).
    apply bind_ok in H. destruct H as ([[bn|] bf] & w2 & _ & H);
      [|eapply prey_behavior_length; eauto].
    destruct (fleb bf cf); [eapply prey_behavior_length; eauto|].
    apply bind_ok in H. destruct H as (ratio & w3 & _ & H).
    destruct (fltb (crowd_factor self) ratio); [eapply prey_behavior_length; eauto|].
    apply lift_ok in H. destruct H as [H _]. eapply move_towards_length; eauto.
Qed.

(** The incumbent after a fold is the old one or one of the candidates. *)
Lemma fold_update_invariant (P : vec -> Prop) (new : list vec) (fs : list F)
    (best : vec * F) :
  P (fst best) -> Forall P new ->
  P (fst (fold_left update_best (combine new fs) best)).
Proof.
  intros Hb Hnew. revert fs best Hb.
  induction Hnew as [|p new Hp _ IH]; intros fs best Hb; simpl; [exact Hb|].
  destruct fs as [|f fs]; simpl; [exact Hb|].
  apply IH. unfold update_best. simpl.
  match goal with |- context [if ?c then _ else _] => destruct c end; assumption.
Qed.

Lemma mapM_length {A B} (f : A -> M B) l w r w' :
  mapM f l w = Ok (r, w') -> length r = length l.
Proof.
  revert w r. induction l as [|a l IH]; intros w r H; simpl in H; inv_run.
  - reflexivity.
  - simpl. f_equal. eauto.
Qed.

Lemma initialize_population_shape dimensions w population w' :
  initialize_population self lower_bounds upper_bounds dimensions w = Ok (population, w') ->
  length population = num_fish self /\
  Forall (fun v => length v = dimensions) population.
Proof.
  intros H. unfold initialize_population in H. split.
  - apply mapM_length in H. rewrite length_seq in H. exact H.
  - apply mapM_Forall2 in H. revert H. generalize (seq 0 (num_fish self)).
    intros l H. induction H as [|a v l r (w1 & w2 & Hv) _ IH]; constructor; [|exact IH].
    apply mapM_length in Hv. rewrite length_seq in Hv. exact Hv.
Qed.

Lemma generation_shape dimensions (population : list vec) best w new best' w' :
  Forall (fun v => length v = dimensions) population ->
  length (fst best) = dimensions ->
  generation self fitness_function lower_bounds upper_bounds population best w
    = Ok ((new, best'), w') ->
  length new = num_fish self /\
  Forall (fun v => length v = dimensions) new /\
  length (fst best') = dimensions.
Proof.
  intros Hpop Hbest H. unfold generation in H. apply fish_loop_inv in H.
  destruct H as (Hlen & Hall & fs & Hfs & ->). rewrite length_seq in Hlen.
  assert (Hnew : Forall (fun v => length v = dimensions) new).
  { rewrite Forall_forall in *. intros p Hp.
    destruct (Hall p Hp) as (i & cur & b & w1 & w2 & Hcur & Hb).
    apply apply_behavior_length in Hb. rewrite Hb. apply Hpop.
    eapply nth_error_In; eauto. }
  split; [exact Hlen|]. split; [exact Hnew|].
  apply fold_update_invariant with (P := fun v : vec => length v = dimensions); assumption.
Qed.

Lemma optimize_init_shape dimensions w population best w' :
  optimize_init self fitness_function lower_bounds upper_bounds dimensions w
    = Ok ((population, best), w') ->
  length population = num_fish self /\
  Forall (fun v => length v = dimensions) population /\
  length (fst best) = dimensions /\
  In (fst best) population.
Proof.
  intros Hinit. apply optimize_init_inv in Hinit.
  destruct Hinit as (w1 & fs & i & Hpop & _ & _ & Hsol & _).
  apply initialize_population_shape in Hpop. destruct Hpop as [Hlen Hall].
  assert (Hin : In (fst best) population) by (eapply nth_error_In; eauto).
  repeat split; auto. rewrite Forall_forall in Hall. apply Hall. exact Hin.
Qed.

Lemma generations_shape dimensions n (population : list vec) best w new best' w' :
  length population = num_fish self ->
  Forall (fun v => length v = dimensions) population ->
  length (fst best) = dimensions ->
  generations self fitness_function lower_bounds upper_bounds n population best w
    = Ok ((new, best'), w') ->
  length new = num_fish self /\
  Forall (fun v => length v = dimensions) new /\
  length (fst best') = dimensions.
Proof.
  revert population best w. induction n as [|n IH]; intros pop b w Hlen Hall Hb Hgen;
    simpl in Hgen.
  - inv_run. auto.
  - apply bind_ok in Hgen. destruct Hgen as ([pop1 b1] & w1 & Hg & Hgen).
    eapply generation_shape in Hg; eauto. destruct Hg as (H1 & H2 & H3).
    eapply IH; [| | |exact Hgen]; assumption.
Qed.

(** X1. The population has [num_fish] individuals of [dimensions] coordinates
    each when it is created and after every generation, and so has the
    incumbent solution. *)
Theorem population_shape (dimensions n : nat) w population0 best0 w0 population best w' :
  optimize_init self fitness_function lower_bounds upper_bounds dimensions w
    = Ok ((population0, best0), w0) ->
  generations self fitness_function lower_bounds upper_bounds n population0 best0 w0
    = Ok ((population, best), w') ->
  (length population0 = num_fish self /\
   Forall (fun v => length v = dimensions) population0 /\
   length (fst best0) = dimensions) /\
  (length population = num_fish self /\
   Forall (fun v => length v = dimensions) population /\
   length (fst best) = dimensions).
Proof.
  intros Hinit Hgen. apply optimize_init_shape in Hinit.
  destruct Hinit as (H1 & H2 & H3 & _). split; [auto|].
  eapply generations_shape; eauto.
Qed.

End Origin.

(** ** Exceptions of the search *)

Section Exceptions.

Context {N : Num} {R : Rand N}.

Variable self : afsa.
Variable fitness_function : vec -> res F.
Variables lower_bounds upper_bounds : list F.

(** X2. A swarm without fish: [np.argmax] is given an empty array and
    [optimize] raises ValueError, whatever the other arguments. *)
Theorem optimize_empty_swarm (dimensions : nat) (w : world) :
  num_fish self = 0%nat ->
  optimize self fitness_function lower_bounds upper_bounds dimensions w = Raise ValueError.
Proof.
  intros H. unfold optimize, optimize_init, initialize_population. rewrite H. reflexivity.
Qed.

Lemma list_get_short {A} (l : list A) i :
  (length l <= i)%nat -> list_get l i = Raise IndexError.
Proof.
  intros H. unfold list_get. apply nth_error_None in H. rewrite H. reflexivity.
Qed.

Lemma draw_coordinates_short a k w :
  (0 < k)%nat ->
  (Nat.min (length lower_bounds) (length upper_bounds) < a + k)%nat ->
  mapM (draw_coordinate lower_bounds upper_bounds) (seq a k) w = Raise IndexError.
Proof.
  revert a w. induction k as [|k IH]; intros a w Hk Hmin; [lia|].
  simpl. unfold bind at 1. unfold draw_coordinate at 1. unfold bind at 1.
  destruct (le_lt_dec (length lower_bounds) a) as [Hl|Hl].
  { rewrite (list_get_short _ Hl). reflexivity. }
  destruct (list_get_total lower_bounds Hl) as (l & ->). simpl. unfold bind at 1.
  destruct (le_lt_dec (length upper_bounds) a) as [Hu|Hu].
  { rewrite (list_get_short _ Hu). reflexivity. }
  destruct (list_get_total upper_bounds Hu) as (u & ->). simpl.
  unfold random_uniform. destruct (py_uniform (py_rng w) l u) as [x g].
  unfold bind. rewrite IH; [reflexivity | lia | lia].
Qed.

(** X3. Fewer lower or upper bounds than dimensions: the first fish cannot be
    drawn and [optimize] raises IndexError before any fitness is evaluated. *)
Theorem optimize_short_bounds (dimensions : nat) (w : world) :
  (0 < num_fish self)%nat ->
  (length lower_bounds < dimensions \/ length upper_bounds < dimensions)%nat ->
  initialize_population self lower_bounds upper_bounds dimensions w = Raise IndexError /\
  optimize self fitness_function lower_bounds upper_bounds dimensions w = Raise IndexError.
Proof.
  intros Hfish Hshort.
  assert (H : initialize_population self lower_bounds upper_bounds dimensions w
              = Raise IndexError).
  { unfold initialize_population. destruct (num_fish self) as [|n]; [lia|].
    simpl. unfold bind at 1. rewrite draw_coordinates_short; [reflexivity | lia | lia]. }
  split; [exact H|].
  unfold optimize, optimize_init, bind. rewrite H. reflexivity.
Qed.

End Exceptions.

Section FitnessExceptions.

Context {N : Num}.

Lemma rmapM_raise_at {B} (f : nat -> res B) e a k j :
  (a <= j < a + k)%nat ->
  (forall i, (a <= i < j)%nat -> exists b, f i = Ok b) ->
  f j = Raise e ->
  rmapM f (seq a k) = Raise e.
Proof.
  revert a. induction k as [|k IH]; intros a Hj Hok He; [lia|].
  simpl. destruct (Nat.eq_dec a j) as [->|Hne].
  - rewrite He. reflexivity.
  - destruct (Hok a ltac:(lia)) as (b & ->). simpl.
    rewrite IH; [reflexivity | lia | | exact He].
    intros i Hi. apply Hok. lia.
Qed.

Lemma sum_over_short (n : nat) (op : F -> F -> F) (solution xs : list F) :
  (n <= length solution)%nat -> (length xs < n)%nat ->
  sum_over n op solution xs = Raise IndexError.
Proof.
  intros Hs Hx. unfold sum_over.
  rewrite (@rmapM_raise_at _ _ IndexError 0 n (length xs)); [reflexivity | lia | |].
  - intros i Hi.
    destruct (list_get_total solution (i:=i) ltac:(lia)) as (s & ->).
    destruct (list_get_total xs (i:=i) ltac:(lia)) as (x & ->). simpl. eauto.
  - destruct (list_get_total solution (i:=length xs) ltac:(lia)) as (s & ->). simpl.
    rewrite list_get_short by lia. reflexivity.
Qed.


End FitnessExceptions.

(** ** What the caller receives *)

Section Report.

Context {N : Num} {R : Rand N}.


End Report.

Section GreenTimes.

Context {N : Num} {R : Rand N} {L : NumLaws N} {RL : RandLaws R}.

Lemma generations_best_in_bounds (self : afsa) (fitness_function : vec -> res F)
    (lower_bounds upper_bounds : list F) n (population : list vec) best w new best' w' :
  bounds_ordered lower_bounds upper_bounds ->
  Forall (in_bounds lower_bounds upper_bounds) population ->
  in_bounds lower_bounds upper_bounds (fst best) ->
  generations self fitness_function lower_bounds upper_bounds n population best w
    = Ok ((new, best'), w') ->
  in_bounds lower_bounds upper_bounds (fst best').
Proof.
  intros Hord. revert population best w. induction n as [|n IH];
    intros pop b w Hpop Hb Hgen; simpl in Hgen.
  - inv_run. exact Hb.
  - apply bind_ok in Hgen. destruct Hgen as ([pop1 b1] & w1 & Hg & Hgen).
    pose proof Hg as Hnew. eapply generation_in_bounds in Hnew; eauto.
    eapply IH; [exact Hnew | | exact Hgen].
    unfold generation in Hg. apply fish_loop_inv in Hg.
    destruct Hg as (_ & _ & fs & _ & ->).
    apply fold_update_invariant with (P := in_bounds lower_bounds upper_bounds);
      assumption.
Qed.


End GreenTimes.

(** ** How the incumbent changes *)

Section Improvement.

Context {N : Num} {R : Rand N} {L : NumLaws N}.

Variable self : afsa.
Variable fitness_function : vec -> res F.
Variables lower_bounds upper_bounds : list F.

Lemma fold_update_strict (new : list vec) (fs : list F) (best : vec * F) :
  Forall2 (fun p f => fitness_function p = Ok f) new fs ->
  let best' := fold_left update_best (combine new fs) best in
  best' = best \/
  (fltb (snd best) (snd best') = true /\ In (fst best') new /\
   fitness_function (fst best') = Ok (snd best')).
Proof.
  intros H. revert best. induction H as [|p f new fs Hpf _ IH]; intros best; simpl.
  - left. reflexivity.
  - specialize (IH (update_best best (p, f))). simpl in IH.
    unfold update_best in *. simpl in *.
    match goal with |- context [if ?c then _ else _] => destruct c eqn:E end.
    + destruct IH as [->|(Hlt & Hin & Hfit)].
      * right. simpl. auto.
      * right. simpl in Hlt. split; [eapply fltb_trans; eauto|]. auto.
    + destruct IH as [->|(Hlt & Hin & Hfit)]; [left; reflexivity|].
      right. auto.
Qed.


(** X8. The prey behaviour never returns a position less fit than the one it
    started from: the result is the unchanged position or a strictly fitter
    one. *)
Theorem prey_behavior_never_worse (current_fish : vec) (population : list vec) w p w' :
  prey_behavior self fitness_function lower_bounds upper_bounds current_fish population w
    = Ok (p, w') ->
  exists current_fitness,
    fitness_function current_fish = Ok current_fitness /\
    (p = current_fish \/
     exists f, fitness_function p = Ok f /\ fltb current_fitness f = true).
Proof.
  intros H. unfold prey_behavior in H. apply bind_ok in H.
  destruct H as (cf & w1 & Hcf & H). apply lift_ok in Hcf. destruct Hcf as [Hcf ->].
  exists cf. split; [exact Hcf|]. clear Hcf. revert w H.
  induction (try_number self) as [|n IH]; intros w H; simpl in H.
  - inv_run. left. reflexivity.
  - apply bind_ok in H. destruct H as (s & w2 & Hs & H).
    apply bind_ok in H. destruct H as (f & w3 & Hf & H).
    apply lift_ok in Hf. destruct Hf as [Hf ->].
    destruct (fltb cf f) eqn:E.
    + inv_run. right. exists f. auto.
    + eauto.
Qed.

End Improvement.

(** ** Inverted bounds *)

Section Inverted.

Context {N : Num} {L : NumLaws N}.

Lemma clamp1_inverted (l u x : F) :
  fltb u l = true -> py_max l (py_min u x) = l.
Proof.
  intros Hul. unfold py_max, py_min.
  destruct (fltb x u) eqn:Exu.
  - destruct (fltb l x) eqn:Elx; [|reflexivity].
    pose proof (fltb_trans _ _ _ (fltb_trans _ _ _ Exu Hul) Elx) as C.
    rewrite fltb_irrefl in C. discriminate.
  - destruct (fltb l u) eqn:Elu; [|reflexivity].
    pose proof (fltb_trans _ _ _ Hul Elu) as C. rewrite fltb_irrefl in C. discriminate.
Qed.


End Inverted.

(** ** A search without feasible positions *)

Section NothingFeasible.

Context {N : Num} {R : Rand N} {L : NumLaws N} {RL : RandLaws R}.

Variable self : afsa.
Variable fitness_function : vec -> res F.
Variables lower_bounds upper_bounds : list F.
Variable dimensions : nat.

Hypothesis Hord : bounds_ordered lower_bounds upper_bounds.
Hypothesis Hinf : forall v, in_bounds lower_bounds upper_bounds v ->
                            length v = dimensions -> fitness_function v = Ok neg_inf.

Lemma all_neg_inf (population : list vec) fs :
  Forall (in_bounds lower_bounds upper_bounds) population ->
  Forall (fun v => length v = dimensions) population ->
  rmapM fitness_function population = Ok fs ->
  Forall (eq neg_inf) fs.
Proof.
  intros Hb Hs H. apply rmapM_Forall2 in H.
  induction H as [|v f pop fs Hv _ IH]; constructor.
  - rewrite Hinf in Hv; [congruence | exact (Forall_inv Hb) | exact (Forall_inv Hs)].
  - apply IH; [exact (Forall_inv_tail Hb) | exact (Forall_inv_tail Hs)].
Qed.

Lemma argmax_from_ties (t : list F) i best_index best :
  Forall (eq best) t -> argmax_from t i best_index best = best_index.
Proof.
  intros H. revert i. induction H as [|x t <- _ IH]; intros i; simpl; [reflexivity|].
  rewrite fltb_irrefl. apply IH.
Qed.

Lemma fold_update_ties (new : list vec) (fs : list F) (best : vec * F) :
  Forall (eq (snd best)) fs -> fold_left update_best (combine new fs) best = best.
Proof.
  intros H. revert new. induction H as [|f fs Hf _ IH]; intros new.
  - destruct new; reflexivity.
  - destruct new as [|p new]; [reflexivity|]. simpl.
    unfold update_best at 2. simpl. rewrite <- Hf, fltb_irrefl. apply IH.
Qed.

Lemma generations_nothing_feasible n (population : list vec) (best : incumbent) w
    new best' w' :
  Forall (in_bounds lower_bounds upper_bounds) population ->
  Forall (fun v => length v = dimensions) population ->
  snd best = neg_inf ->
  generations self fitness_function lower_bounds upper_bounds n population best w
    = Ok ((new, best'), w') ->
  best' = best.
Proof.
  revert population best w. induction n as [|n IH]; intros pop b w Hb Hs Hv Hgen;
    simpl in Hgen.
  - inv_run. reflexivity.
  - apply bind_ok in Hgen. destruct Hgen as ([pop1 b1] & w1 & Hg & Hgen).
    assert (Hb1 : Forall (in_bounds lower_bounds upper_bounds) pop1)
      by (eapply generation_in_bounds; eauto).
    assert (Hs1 : Forall (fun v => length v = dimensions) pop1).
    { unfold generation in Hg. pose proof Hg as Hg'. apply fish_loop_inv in Hg'.
      destruct Hg' as (_ & Hall & _). rewrite Forall_forall in *. intros p Hp.
      destruct (Hall p Hp) as (i & cur & bh & w2 & w3 & Hcur & Hbh).
      apply apply_behavior_length in Hbh. rewrite Hbh. apply Hs.
      eapply nth_error_In; eauto. }
    assert (E : b1 = b).
    { unfold generation in Hg. apply fish_loop_inv in Hg.
      destruct Hg as (_ & _ & fs & Hfs & ->).
      apply fold_update_ties. rewrite Hv. eapply all_neg_inf; eauto. }
    subst b1. eapply IH; eauto.
Qed.


End NothingFeasible.

(** ** The incumbent does not steer the search *)

Section NoFeedback.

Context {N : Num} {R : Rand N}.

Variable self : afsa.
Variable fitness_function : vec -> res F.
Variables lower_bounds upper_bounds : list F.

Lemma fish_step_no_feedback (population : list vec) (b1 b2 : incumbent) i w :
  same_positions
    (fish_step self fitness_function lower_bounds upper_bounds population b1 i w)
    (fish_step self fitness_function lower_bounds upper_bounds population b2 i w).
Proof.
  unfold fish_step, bind, same_positions.
  destruct (lift (list_get population i) w) as [[cur w1]|e]; [|reflexivity].
  destruct (random_choice [prey; swarm; follow] w1) as [[b w2]|e]; [|reflexivity].
  destruct (apply_behavior self fitness_function lower_bounds upper_bounds b cur
              population w2) as [[p w3]|e]; [|reflexivity].
  destruct (lift (fitness_function p) w3) as [[f w4]|e]; [|reflexivity].
  destruct (fltb (snd b1) f), (fltb (snd b2) f); simpl; auto.
Qed.

Lemma fish_loop_no_feedback (population : list vec) idx (b1 b2 : incumbent) w :
  same_positions
    (fish_loop self fitness_function lower_bounds upper_bounds population b1 idx w)
    (fish_loop self fitness_function lower_bounds upper_bounds population b2 idx w).
Proof.
  revert b1 b2 w. induction idx as [|i idx IH]; intros b1 b2 w; simpl.
  - unfold ret. simpl. auto.
  - pose proof (fish_step_no_feedback population b1 b2 i w) as Hs.
    unfold bind. unfold same_positions in Hs.
    destruct (fish_step self fitness_function lower_bounds upper_bounds population b1 i w)
      as [[[p1 c1] w1]|e1],
      (fish_step self fitness_function lower_bounds upper_bounds population b2 i w)
      as [[[p2 c2] w2]|e2]; try contradiction; [|exact Hs].
    destruct Hs as [-> ->].
    specialize (IH c1 c2 w2). unfold same_positions in IH |- *.
    destruct (fish_loop self fitness_function lower_bounds upper_bounds population c1 idx w2)
      as [[[r1 d1] v1]|e1],
      (fish_loop self fitness_function lower_bounds upper_bounds population c2 idx w2)
      as [[[r2 d2] v2]|e2]; try contradiction; [|exact IH].
    destruct IH as [-> ->]. unfold ret. auto.
Qed.

Lemma generations_no_feedback n (population : list vec) (b1 b2 : incumbent) w :
  same_positions
    (generations self fitness_function lower_bounds upper_bounds n population b1 w)
    (generations self fitness_function lower_bounds upper_bounds n population b2 w).
Proof.
  revert population b1 b2 w. induction n as [|n IH]; intros pop b1 b2 w; simpl.
  - unfold ret. simpl. auto.
  - pose proof (fish_loop_no_feedback pop (seq 0 (num_fish self)) b1 b2 w) as Hs.
    unfold bind, generation. unfold same_positions in Hs.
    destruct (fish_loop self fitness_function lower_bounds upper_bounds pop b1
                (seq 0 (num_fish self)) w) as [[[p1 c1] w1]|e1],
      (fish_loop self fitness_function lower_bounds upper_bounds pop b2
         (seq 0 (num_fish self)) w) as [[[p2 c2] w2]|e2]; try contradiction; [|exact Hs].
    destruct Hs as [-> ->]. apply IH.
Qed.

(** X11. No behaviour reads the incumbent: from the same population and
    generator state the loop reaches the same populations, draws the same
    numbers and raises the same exceptions whatever incumbent it starts with. *)
Theorem incumbent_does_not_steer n (population : list vec) (b1 b2 : incumbent) w :
  population_of
    (generations self fitness_function lower_bounds upper_bounds n population b1 w)
  = population_of
      (generations self fitness_function lower_bounds upper_bounds n population b2 w).
Proof.
  pose proof (generations_no_feedback n population b1 b2 w) as H.
  unfold same_positions in H. unfold population_of.
  destruct (generations self fitness_function lower_bounds upper_bounds n population b1 w)
    as [[[p1 c1] w1]|e1],
    (generations self fitness_function lower_bounds upper_bounds n population b2 w)
    as [[[p2 c2] w2]|e2]; try contradiction.
  - destruct H as [-> ->]. reflexivity.
  - congruence.
Qed.

End NoFeedback.

(** ** The follow behaviour *)

Section Follow.

Context {N : Num} {R : Rand N}.

Variable self : afsa.
Variable fitness_function : vec -> res F.
Variables lower_bounds upper_bounds : list F.

Lemma best_neighbor_scan_member (cur : vec) (population : list vec)
    (best best' : option vec * F) :
  best_neighbor_scan self fitness_function cur population best = Ok best' ->
  fst best' = fst best \/ exists b, fst best' = Some b /\ In b population.
Proof.
  revert best. induction population as [|fish rest IH]; intros best H; simpl in H.
  - inversion H. left. reflexivity.
  - destruct (in_visual_range self cur fish).
    + apply rbind_ok in H. destruct H as (f & _ & H).
      match type of H with (if ?c then _ else _) = _ => destruct c end;
        apply IH in H; destruct H as [H|(b & Hb & Hin)]; simpl in *; eauto 6.
    + apply IH in H. destruct H as [H|(b & Hb & Hin)]; simpl; eauto 6.
Qed.

Section Scan.

Context {L : NumLaws N}.

Lemma best_neighbor_scan_general (cur : vec) (population : list vec)
    (start : option vec) (f0 : F) bn bf :
  best_neighbor_scan self fitness_function cur population (start, f0) = Ok (bn, bf) ->
  exists fs,
    rmapM fitness_function (find_neighbors self cur population) = Ok fs /\
    ((bn = start /\ bf = f0 /\ Forall (fun f => fltb f0 f = false) fs) \/
     (exists b, bn = Some b /\ In b (find_neighbors self cur population) /\
                fitness_function b = Ok bf /\ fltb f0 bf = true /\
                Forall (fun f => fleb f bf = true) fs)).
Proof.
  revert start f0. induction population as [|fish rest IH]; intros start f0 H; simpl in H.
  - inversion H; subst. exists []. split; [reflexivity|]. left. auto.
  - unfold find_neighbors in *. simpl.
    destruct (in_visual_range self cur fish).
    + apply rbind_ok in H. destruct H as (f & Hf & H). simpl in H.
      destruct (fltb f0 f) eqn:E.
      * apply IH in H. destruct H as (fs & Hfs & Hcase).
        exists (f :: fs). split; [simpl; rewrite Hf, Hfs; reflexivity|]. right.
        destruct Hcase as [(-> & -> & Hall)|(b & -> & Hin & Hb & Hlt & Hall)].
        { exists fish. repeat split; auto; [left; reflexivity|].
          constructor; [apply fleb_refl|].
          eapply Forall_impl; [|exact Hall]. intros x Hx. simpl in Hx.
          apply fltb_false_fleb. exact Hx. }
        { exists b. repeat split; auto; [right; exact Hin | eapply fltb_trans; eauto|].
          constructor; [apply fltb_fleb; exact Hlt | exact Hall]. }
      * apply IH in H. destruct H as (fs & Hfs & Hcase).
        exists (f :: fs). split; [simpl; rewrite Hf, Hfs; reflexivity|].
        destruct Hcase as [(-> & -> & Hall)|(b & -> & Hin & Hb & Hlt & Hall)].
        { left. repeat split; auto. }
        { right. exists b. repeat split; auto; [right; exact Hin|].
          constructor; [|exact Hall].
          eapply fleb_trans; [apply fltb_false_fleb; exact E | apply fltb_fleb; exact Hlt]. }
    + apply IH in H. exact H.
Qed.


End Scan.


End Follow.

(** ** The further properties on the worked scenarios *)

Lemma population_shape_witness :
  (length (fst (fst Scenario.start)) = 2%nat /\
   Forall (fun v : list xq => length v = 2%nat) (fst (fst Scenario.start)) /\
   length (fst (snd (fst Scenario.start))) = 2%nat) /\
  (length (fst (fst Scenario.finish)) = 2%nat /\
   Forall (fun v : list xq => length v = 2%nat) (fst (fst Scenario.finish)) /\
   length (fst (snd (fst Scenario.finish))) = 2%nat).
Proof.
  apply (@population_shape QNum ScriptedRand Scenario.swarm2 Scenario.objective
           Scenario.lower Scenario.upper 2 2 Scenario.w0
           (fst (fst Scenario.start)) (snd (fst Scenario.start)) (snd Scenario.start)
           (fst (fst Scenario.finish)) (snd (fst Scenario.finish)) (snd Scenario.finish)).
  - reflexivity.
  - reflexivity.
Defined.

Lemma optimize_empty_swarm_witness :
  optimize (R:=ScriptedRand) (afsa_init (N:=QNum) 0 2 (flit 5) (flit 0.618) (flit 0.5) 2)
    Scenario.objective Scenario.lower Scenario.upper 2 Scenario.w0
  = Raise ValueError.
Proof.
  apply (@optimize_empty_swarm QNum ScriptedRand). reflexivity.
Defined.

Lemma optimize_short_bounds_witness :
  initialize_population (R:=ScriptedRand) Scenario.swarm2 [Scenario.q 10] Scenario.upper 2
    Scenario.w0 = Raise IndexError /\
  optimize (R:=ScriptedRand) Scenario.swarm2 Scenario.objective [Scenario.q 10]
    Scenario.upper 2 Scenario.w0 = Raise IndexError.
Proof.
  apply (@optimize_short_bounds QNum ScriptedRand).
  - simpl. lia.
  - left. simpl. lia.
Defined.





Lemma prey_behavior_never_worse_witness :
  exists current_fitness,
    Scenario.objective [Scenario.q 65; Scenario.q 10] = Ok current_fitness /\
    (fst Walkthrough.prey_run = [Scenario.q 65; Scenario.q 10] \/
     exists f, Scenario.objective (fst Walkthrough.prey_run) = Ok f /\
               @fltb QNum current_fitness f = true).
Proof.
  apply (@prey_behavior_never_worse QNum ScriptedRand Scenario.swarm2 Scenario.objective
           Scenario.lower Scenario.upper [Scenario.q 65; Scenario.q 10] [] Scenario.w0
           (fst Walkthrough.prey_run) (snd Walkthrough.prey_run)).
  reflexivity.
Defined.


Lemma infeasible_within_bounds (v : list xq) :
  in_bounds (N:=QNum) Infeasible.lower Infeasible.upper v ->
  length v = 3%nat ->
  Infeasible.objective v = Ok NInf.
Proof.
  intros Hb Hlen.
  destruct v as [|a [|b [|c [|d v]]]]; try discriminate.
  assert (Hcoord : forall j x, nth_error [a; b; c] j = Some x ->
                     exists qx, x = Fin qx /\ (50 <= qx)%Q).
  { intros j x Hx. destruct (Hb j x Hx) as (l & u & Hl & _ & Hlx & _).
    assert (l = Scenario.q 50).
    { destruct j as [|[|[|j]]]; simpl in Hl; try congruence. destruct j; discriminate. }
    subst l. destruct x as [|qx]; [discriminate|]. exists qx. split; [reflexivity|].
    apply xq_ltb_Fin_false. apply negb_true_iff. exact Hlx. }
  destruct (Hcoord 0%nat a eq_refl) as (qa & -> & Ha).
  destruct (Hcoord 1%nat b eq_refl) as (qb & -> & Hb').
  destruct (Hcoord 2%nat c eq_refl) as (qc & -> & Hc).
  unfold Infeasible.objective, fitness_function.
  assert (E : @fltb QNum (cycle_time_constraint Infeasible.optimizer)
                (@np_sum QNum [Fin qa; Fin qb; Fin qc]) = true).
  { cbv [np_sum fold_left fadd fltb QNum xq_lift2 of_Z cycle_time_constraint
         Infeasible.optimizer Scenario.q].
    apply xq_ltb_Fin. rewrite !Qred_correct.
    change (inject_Z 100) with 100%Q. change (inject_Z 0) with 0%Q. lra. }
  rewrite E. reflexivity.
Qed.



